(** * Edge instance of the streaming chat backend: reorder buffers, stream
      registry, session directory parsing and the submit handler.

    The Go packages [models], [buffer], [sse], [registry] and [handlers] are
    embedded as pure state-passing functions.  Conventions:

    - Go [int] is modelled by [Z].  The counters of this program
      ([NextToSend], loop indices) only ever count entries of a finite map
      held in memory, so the 64-bit wrap-around is out of reach and is not
      written out.
    - [time.Time] and [time.Duration] are integers (nanoseconds); the calls
      of [time.Now()] become an explicit argument [now], one per operation
      (the clock does not move inside an operation).
    - A Go [map] is a [gmap]; a [nil] map is [None].
    - The mutexes are not modelled: each operation is one atomic step. *)

From Stdlib Require QArith_base.
From stdpp Require Import base gmap sets list strings numbers.

Local Open Scope Z_scope.
Set Warnings "-register-all".

(** ** Package [models] *)

Definition Time := Z.
Definition Duration := Z.

(** The zero value of [time.Time] (January 1, year 1), in nanoseconds
    relative to the Unix epoch. *)
Definition zeroTime : Time := -62135596800000000000.

(** Values of type [interface{}] as produced by [encoding/json]: a JSON
    number always decodes to [float64]; the finite floats are rationals. *)
Inductive JValue :=
| JNull
| JBool (b : bool)
| JNumber (f : QArith_base.Q)
| JString (s : string)
| JArray (xs : list JValue)
| JObject (kvs : list (string * JValue)).

(** The conversion [int(f)] of a [float64]: truncation toward zero. *)
Definition float64_to_int (f : QArith_base.Q) : Z :=
  Z.quot (QArith_base.Qnum f) (Z.pos (QArith_base.Qden f)).

Module ErrorInfo.
Record t := mk { Code : string; Message : string }.
End ErrorInfo.

Module ResponseChunk.
Record t := mk {
  SessionID : string;
  MessageID : string;
  ChunkID : Z;
  Chunk : string;
  ChunkType : string;
  IsFinal : bool;
  Metadata : option (gmap string JValue);
  Error : option ErrorInfo.t;
  Timestamp : Time;
  CorrelationID : string
}.
End ResponseChunk.

Module Message.
Record t := mk {
  MessageID : string;
  SessionID : string;
  Role : string;
  Content : string;
  CreatedAt : Time;
  TokenCount : Z;
  Metadata : option (gmap string JValue)
}.
End Message.

Module BufferState.
Record t := mk {
  TotalExpected : Z;
  TotalReceived : Z;
  TotalSent : Z;
  MissingChunks : list Z;
  IsComplete : bool
}.
End BufferState.

Module ChatRequest.
Record t := mk {
  SessionID : string;
  Message : string;
  UserID : string;
  AIProvider : string;
  Model : string;
  Context : option (gmap string JValue)
}.
End ChatRequest.

Module WorkflowRequest.
Record t := mk {
  MessageID : string;
  SessionID : string;
  UserID : string;
  Message : string;
  Context : option (gmap string JValue);
  Timestamp : Time;
  CorrelationID : string
}.
End WorkflowRequest.

Module ChatResponse.
Record t := mk {
  MessageID : string;
  SessionID : string;
  Status : string;
  Timestamp : Time;
  CorrelationID : string
}.
End ChatResponse.

(** ** Package [buffer] *)

Module ChunkBuffer.
Record t := mk {
  SessionID : string;
  MessageID : string;
  Chunks : gmap Z ResponseChunk.t;
  MaxChunkID : Z;
  NextToSend : Z;
  IsFinal : bool;
  FinalChunkID : Z;
  CreatedAt : Time;
  UpdatedAt : Time
}.

Definition setNextToSend (n : Z) (b : t) : t :=
  mk (SessionID b) (MessageID b) (Chunks b) (MaxChunkID b) n
     (IsFinal b) (FinalChunkID b) (CreatedAt b) (UpdatedAt b).
End ChunkBuffer.

Module buffer.

(** The errors built with [fmt.Errorf] in the package, one constructor per
    format string. *)
Inductive error :=
| ErrBufferLimit (max : Z)
| ErrChunkLimit (messageID : string) (max : Z)
| ErrBufferNotFound (messageID : string)
| ErrNotFinalized (messageID : string)
| ErrMissingChunk (i : Z) (messageID : string).

Record Manager := mkManager {
  buffers : gmap string ChunkBuffer.t;
  maxBuffersPerPod : Z;
  maxChunksPerBuffer : Z;
  maxBufferAge : Duration;
  cleanupInterval : Duration;
  missingChunkTimeout : Duration
}.

Definition setBuffers (bs : gmap string ChunkBuffer.t) (m : Manager) : Manager :=
  mkManager bs (maxBuffersPerPod m) (maxChunksPerBuffer m) (maxBufferAge m)
            (cleanupInterval m) (missingChunkTimeout m).

Definition NewManager (maxBuffers maxChunks : Z)
    (maxAge cleanupInterval missingChunkTimeout : Duration) : Manager :=
  mkManager ∅ maxBuffers maxChunks maxAge cleanupInterval missingChunkTimeout.

(** The buffer created by [AddChunk] for a message seen for the first
    time; the fields the composite literal leaves out are zero values. *)
Definition newBuffer (now : Time) (chunk : ResponseChunk.t) : ChunkBuffer.t :=
  ChunkBuffer.mk (ResponseChunk.SessionID chunk) (ResponseChunk.MessageID chunk)
                 ∅ 0 0 false 0 now zeroTime.

(** Lines 94-107 of [AddChunk]: store the chunk and update the counters. *)
Definition storeChunk (now : Time) (chunk : ResponseChunk.t)
    (b : ChunkBuffer.t) : ChunkBuffer.t :=
  ChunkBuffer.mk
    (ChunkBuffer.SessionID b) (ChunkBuffer.MessageID b)
    (<[ResponseChunk.ChunkID chunk := chunk]> (ChunkBuffer.Chunks b))
    (if ResponseChunk.ChunkID chunk >? ChunkBuffer.MaxChunkID b
     then ResponseChunk.ChunkID chunk else ChunkBuffer.MaxChunkID b)
    (ChunkBuffer.NextToSend b)
    (if ResponseChunk.IsFinal chunk then true else ChunkBuffer.IsFinal b)
    (if ResponseChunk.IsFinal chunk
     then ResponseChunk.ChunkID chunk else ChunkBuffer.FinalChunkID b)
    (ChunkBuffer.CreatedAt b)
    now.

Definition AddChunk (now : Time) (chunk : ResponseChunk.t) (m : Manager)
    : Manager * option error :=
  if Z.of_nat (size (buffers m)) >=? maxBuffersPerPod m then
    (m, Some (ErrBufferLimit (maxBuffersPerPod m)))
  else
    let '(b, m1) :=
      match buffers m !! ResponseChunk.MessageID chunk with
      | Some b => (b, m)
      | None =>
          let b := newBuffer now chunk in
          (b, setBuffers (<[ResponseChunk.MessageID chunk := b]> (buffers m)) m)
      end in
    if Z.of_nat (size (ChunkBuffer.Chunks b)) >=? maxChunksPerBuffer m then
      (m1, Some (ErrChunkLimit (ResponseChunk.MessageID chunk) (maxChunksPerBuffer m)))
    else
      match ChunkBuffer.Chunks b !! ResponseChunk.ChunkID chunk with
      | Some existing =>
          if negb (String.eqb (ResponseChunk.Chunk existing) (ResponseChunk.Chunk chunk))
          then (m1, None)
          else (m1, None)
      | None =>
          (setBuffers (<[ResponseChunk.MessageID chunk := storeChunk now chunk b]>
                         (buffers m1)) m1,
           None)
      end.

(** The [for] loop of [GetNextChunks].  Every iteration that continues
    has found a distinct key of the map, so [S (size chunks)] iterations
    are never exceeded (lemma [collect_fuel] below). *)
Fixpoint collect (fuel : nat) (chunks : gmap Z ResponseChunk.t) (next : Z)
    : list ResponseChunk.t * Z :=
  match fuel with
  | O => ([], next)
  | S fuel' =>
      match chunks !! next with
      | None => ([], next)
      | Some chunk =>
          if ResponseChunk.IsFinal chunk then ([chunk], next + 1)
          else
            let '(rest, next') := collect fuel' chunks (next + 1) in
            (chunk :: rest, next')
      end
  end.

Definition GetNextChunks (messageID : string) (m : Manager)
    : Manager * (error + list ResponseChunk.t * bool) :=
  match buffers m !! messageID with
  | None => (m, inl (ErrBufferNotFound messageID))
  | Some b =>
      let '(chunksToSend, next) :=
        collect (S (size (ChunkBuffer.Chunks b))) (ChunkBuffer.Chunks b)
                (ChunkBuffer.NextToSend b) in
      let isComplete :=
        ChunkBuffer.IsFinal b && (next >? ChunkBuffer.FinalChunkID b) in
      (setBuffers (<[messageID := ChunkBuffer.setNextToSend next b]> (buffers m)) m,
       inr (chunksToSend, isComplete))
  end.

(** First loop of [FinalizeMessage]: the first index of [0..final] that
    has no chunk. *)
Fixpoint firstMissing (chunks : gmap Z ResponseChunk.t) (idxs : list Z) : option Z :=
  match idxs with
  | [] => None
  | i :: idxs' =>
      match chunks !! i with
      | None => Some i
      | Some _ => firstMissing chunks idxs'
      end
  end.

(** Loop state of the second loop: [fullContent], [totalTokens],
    [metadata]. *)
Definition assembly : Type := string * Z * option (gmap string JValue).

Definition tokensOf (md : gmap string JValue) (totalTokens : Z) : Z :=
  match md !! "tokens_used"%string with
  | Some (JNumber tokens) => float64_to_int tokens
  | _ => totalTokens
  end.

Definition assembleStep (chunks : gmap Z ResponseChunk.t) (st : assembly) (i : Z)
    : assembly :=
  let '(fullContent, totalTokens, metadata) := st in
  match chunks !! i with
  | None => st (* not reached: the first loop has checked every index *)
  | Some chunk =>
      let fullContent' :=
        if String.eqb (ResponseChunk.ChunkType chunk) "content"
        then (fullContent ++ ResponseChunk.Chunk chunk)%string
        else fullContent in
      match ResponseChunk.IsFinal chunk, ResponseChunk.Metadata chunk with
      | true, Some md => (fullContent', tokensOf md totalTokens, Some md)
      | _, _ => (fullContent', totalTokens, metadata)
      end
  end.

Definition assemble (chunks : gmap Z ResponseChunk.t) (final : Z) : assembly :=
  foldl (assembleStep chunks) (""%string, 0, None) (seqZ 0 (final + 1)).

Definition FinalizeMessage (now : Time) (messageID : string) (m : Manager)
    : Manager * (error + Message.t) :=
  match buffers m !! messageID with
  | None => (m, inl (ErrBufferNotFound messageID))
  | Some b =>
      let m' := setBuffers (delete messageID (buffers m)) m in
      if negb (ChunkBuffer.IsFinal b) then (m', inl (ErrNotFinalized messageID))
      else
        match firstMissing (ChunkBuffer.Chunks b)
                           (seqZ 0 (ChunkBuffer.FinalChunkID b + 1)) with
        | Some i => (m', inl (ErrMissingChunk i messageID))
        | None =>
            let '(fullContent, totalTokens, metadata) :=
              assemble (ChunkBuffer.Chunks b) (ChunkBuffer.FinalChunkID b) in
            (m', inr (Message.mk messageID (ChunkBuffer.SessionID b) "assistant"
                                 fullContent now totalTokens metadata))
        end
  end.

Definition missingChunks (chunks : gmap Z ResponseChunk.t) (final : Z) : list Z :=
  filter (λ i, chunks !! i = None) (seqZ 0 (final + 1)).

Definition GetState (messageID : string) (m : Manager)
    : Manager * (error + BufferState.t) :=
  match buffers m !! messageID with
  | None => (m, inl (ErrBufferNotFound messageID))
  | Some b =>
      let received := Z.of_nat (size (ChunkBuffer.Chunks b)) in
      if ChunkBuffer.IsFinal b then
        let missing := missingChunks (ChunkBuffer.Chunks b) (ChunkBuffer.FinalChunkID b) in
        (m, inr (BufferState.mk (ChunkBuffer.FinalChunkID b + 1) received
                                (ChunkBuffer.NextToSend b) missing
                                (Z.of_nat (length missing) =? 0)))
      else
        (m, inr (BufferState.mk 0 received (ChunkBuffer.NextToSend b) [] false))
  end.

(** [cleanup]: the test of the first loop, and the two loops. *)
Definition isEvicted (now : Time) (maxAge : Duration) (b : ChunkBuffer.t) : bool :=
  let staleThreshold := now - maxAge in
  let isStale := ChunkBuffer.UpdatedAt b <? staleThreshold in
  let isFinal := ChunkBuffer.IsFinal b in
  isStale || isFinal.

Definition staleBuffers (now : Time) (m : Manager) : list string :=
  (filter (λ kb, isEvicted now (maxBufferAge m) kb.2 = true)
          (map_to_list (buffers m))).*1.

Definition cleanup (now : Time) (m : Manager) : Manager :=
  setBuffers (foldr delete (buffers m) (staleBuffers now m)) m.

Definition GetBufferCount (m : Manager) : Z := Z.of_nat (size (buffers m)).

End buffer.

(** ** Package [sse] *)

(** A [*Connection].  The transport handles ([Writer], [Flusher], [Done])
    carry no data of the registry.  [LastSent] is the only field written
    after construction; both indices of the manager hold the same pointer,
    so they cannot disagree on it and it is left out of the record. *)
Module Connection.
Record t := mk {
  ID : string;
  SessionID : string;
  UserID : string;
  CreatedAt : Time;
  ClientIP : string;
  UserAgent : string
}.

#[global] Instance eq_dec : EqDecision t.
Proof. solve_decision. Defined.
End Connection.

Module sse.

Record Manager := mkManager {
  connections : gmap string Connection.t;
  sessions : gmap string (list Connection.t)
}.

Definition NewManager : Manager := mkManager ∅ ∅.

(** [m.sessions[sessionID]] read as a Go map: a missing key is the nil
    slice. *)
Definition sessionConns (m : Manager) (sessionID : string) : list Connection.t :=
  default [] (sessions m !! sessionID).

(** [AddConnection].  [id] is the result of [uuid.New().String()];
    [isFlusher] tells whether the writer implements [http.Flusher].  The
    [connected] event sent at the end goes through [SendEvent], which only
    reads the manager. *)
Definition AddConnection (id : string) (now : Time)
    (sessionID userID clientIP userAgent : string) (isFlusher : bool)
    (m : Manager) : Manager * option Connection.t :=
  if negb isFlusher then (m, None)
  else
    let conn := Connection.mk id sessionID userID now clientIP userAgent in
    (mkManager (<[id := conn]> (connections m))
               (<[sessionID := sessionConns m sessionID ++ [conn]]> (sessions m)),
     Some conn).

Definition RemoveConnection (connectionID : string) (m : Manager) : Manager :=
  match connections m !! connectionID with
  | None => m
  | Some conn =>
      let connections' := delete connectionID (connections m) in
      let sid := Connection.SessionID conn in
      match sessions m !! sid with
      | Some conns =>
          let sessions1 :=
            match list_find (λ c, Connection.ID c = connectionID) conns with
            | Some (i, _) =>
                <[sid := take i conns ++ drop (S i) conns]> (sessions m)
            | None => sessions m
            end in
          if Nat.eqb (length (default [] (sessions1 !! sid))) 0
          then mkManager connections' (delete sid sessions1)
          else mkManager connections' sessions1
      | None => mkManager connections' (sessions m)
      end
  end.

Definition HasActiveConnections (sessionID : string) (m : Manager) : bool :=
  Nat.ltb 0 (length (sessionConns m sessionID)).

Definition GetConnectionCount (m : Manager) : nat := size (connections m).

Definition GetSessionCount (m : Manager) : nat := size (sessions m).

(** One call of the public registration interface. *)
Inductive call :=
| CallAdd (id : string) (now : Time)
          (sessionID userID clientIP userAgent : string) (isFlusher : bool)
| CallRemove (connectionID : string).

Definition exec (m : Manager) (c : call) : Manager :=
  match c with
  | CallAdd id now sid uid ip ua fl => (AddConnection id now sid uid ip ua fl m).1
  | CallRemove id => RemoveConnection id m
  end.

(** [uuid.New()] never returns the id of a registered connection. *)
Definition freshCall (m : Manager) (c : call) : Prop :=
  match c with
  | CallAdd id _ _ _ _ _ _ => connections m !! id = None
  | CallRemove _ => True
  end.

(** The states reached from [NewManager] by a finite sequence of calls. *)
Inductive reachable : Manager → Prop :=
| reachable_new : reachable NewManager
| reachable_step m c : reachable m → freshCall m c → reachable (exec m c).

Definition occurrences (c : Connection.t) (l : list Connection.t) : nat :=
  length (filter (λ x, x = c) l).

(** Sum of the lengths of the per-session slices. *)
Definition totalSessionConns (m : Manager) : nat :=
  map_fold (λ (_ : string) (l : list Connection.t) acc, (length l + acc)%nat)
           0%nat (sessions m).

(** Session ids of the registered connections. *)
Definition liveSessions (m : Manager) : gset string :=
  list_to_set ((λ kc, Connection.SessionID kc.2) <$> map_to_list (connections m)).

End sse.

(** ** Package [registry] *)

Module registry.

(** Outcome of a Go call that may panic at run time. *)
Inductive outcome (A : Type) :=
| Panic
| Failed
| Done (a : A).
Arguments Panic {A}.
Arguments Failed {A}.
Arguments Done {A} a.

Definition len (s : string) : Z := Z.of_nat (String.length s).

(** The slice expression [s[lo:hi]] on a string: a run-time panic unless
    [0 <= lo <= hi <= len(s)]. *)
Definition slice (s : string) (lo hi : Z) : option string :=
  if (0 <=? lo) && (lo <=? hi) && (hi <=? len s)
  then Some (String.substring (Z.to_nat lo) (Z.to_nat (hi - lo)) s)
  else None.

(** Line 123:
    [member[:len(member)-len(member[len(member)-36:])-1]]. *)
Definition extractPodID (member : string) : option string :=
  match slice member (len member - 36) (len member) with
  | None => None
  | Some tail => slice member 0 (len member - len tail - 1)
  end.

(** The loop over the members, filling [podMap]. *)
Fixpoint collectPods (members : list string) (podMap : gset string)
    : option (gset string) :=
  match members with
  | [] => Some podMap
  | member :: rest =>
      match extractPodID member with
      | None => None
      | Some podID =>
          collectPods rest
            (if 0 <? len podID then {[podID]} ∪ podMap else podMap)
      end
  end.

(** [GetActivePods]; [smembers] is the result of the [SMEMBERS] round
    trip ([None] when it fails).  The order of the result is the iteration
    order of a Go map, which is unspecified. *)
Definition GetActivePods (smembers : option (list string)) : outcome (list string) :=
  match smembers with
  | None => Failed
  | Some members =>
      match collectPods members ∅ with
      | None => Panic
      | Some podMap => Done (elements podMap)
      end
  end.

(** Position of the last [':'] of a string, counted from the left. *)
Fixpoint lastColon (s : string) : option nat :=
  match s with
  | EmptyString => None
  | String a rest =>
      match lastColon rest with
      | Some i => Some (S i)
      | None => if Ascii.eqb a (Ascii.ascii_of_nat 58) then Some O else None
      end
  end.

(** The part of a member before its last [':']. *)
Definition beforeLastColon (member : string) : option string :=
  match lastColon member with
  | None => None
  | Some i => Some (String.substring 0 i member)
  end.

End registry.

(** ** Package [handlers] *)

Module handlers.

Inductive method := GET | POST | PUT | DELETE | OPTIONS.

(** An incoming request: its method and the result of decoding its body
    as a [ChatRequest] ([None] for malformed JSON). *)
Record Request := mkRequest {
  Method : method;
  Body : option ChatRequest.t
}.

Inductive body :=
| Text (s : string)
| Json (r : ChatResponse.t).

Record Response := mkResponse {
  StatusCode : Z;
  ResponseBody : body
}.

Definition StatusAccepted : Z := 202.
Definition StatusBadRequest : Z := 400.
Definition StatusMethodNotAllowed : Z := 405.
Definition StatusInternalServerError : Z := 500.
Definition StatusServiceUnavailable : Z := 503.

Definition workflowContext (req : ChatRequest.t) : option (gmap string JValue) :=
  if negb (String.eqb (ChatRequest.AIProvider req) "") then
    Some (<["model"%string := JString (ChatRequest.Model req)]>
            (<["ai_provider"%string := JString (ChatRequest.AIProvider req)]>
               (default ∅ (ChatRequest.Context req))))
  else ChatRequest.Context req.

(** [HandleChat].  [messageID] and [correlationID] are the two fresh
    uuids, [publish] is the bus ([true]: the publish went through).  The
    second component lists the calls of [PublishWorkflowRequest], in
    order. *)
Definition HandleChat (publish : WorkflowRequest.t → bool)
    (messageID correlationID : string) (now : Time) (r : Request)
    : Response * list WorkflowRequest.t :=
  match Method r with
  | POST =>
      match Body r with
      | None => (mkResponse StatusBadRequest (Text "Invalid request body"), [])
      | Some req =>
          if String.eqb (ChatRequest.SessionID req) ""
             || String.eqb (ChatRequest.Message req) ""
             || String.eqb (ChatRequest.UserID req) ""
          then (mkResponse StatusBadRequest (Text "Missing required fields"), [])
          else
            let workflowReq :=
              WorkflowRequest.mk messageID (ChatRequest.SessionID req)
                (ChatRequest.UserID req) (ChatRequest.Message req)
                (workflowContext req) now correlationID in
            if negb (publish workflowReq) then
              (mkResponse StatusInternalServerError (Text "Failed to process request"),
               [workflowReq])
            else
              (mkResponse StatusAccepted
                 (Json (ChatResponse.mk messageID (ChatRequest.SessionID req)
                          "accepted" now correlationID)),
               [workflowReq])
      end
  | _ => (mkResponse StatusMethodNotAllowed (Text "Method not allowed"), [])
  end.

(** The events the ingest path hands to [sseManager.SendToSession]. *)
Inductive SSEEvent :=
| EvChunk (chunk : ResponseChunk.t)
| EvMessageComplete (messageID : string) (tokenCount : Z).

(** The part of a handler's state the ingest path and the sweeper touch:
    the buffer manager, and the log of the events sent so far, each with
    the session it was sent to. *)
Record Handler := mkHandler {
  bufferManager : buffer.Manager;
  sent : list (string * SSEEvent)
}.

Definition HandleResponseChunk (now : Time) (chunk : ResponseChunk.t) (h : Handler)
    : Handler * option buffer.error :=
  match buffer.AddChunk now chunk (bufferManager h) with
  | (m1, Some err) => (mkHandler m1 (sent h), Some err)
  | (m1, None) =>
      match buffer.GetNextChunks (ResponseChunk.MessageID chunk) m1 with
      | (m2, inl err) => (mkHandler m2 (sent h), Some err)
      | (m2, inr (chunksToSend, isComplete)) =>
          let sent1 :=
            sent h ++ ((λ c, (ResponseChunk.SessionID chunk, EvChunk c)) <$> chunksToSend) in
          if isComplete then
            match buffer.FinalizeMessage now (ResponseChunk.MessageID chunk) m2 with
            | (m3, inl err) => (mkHandler m3 sent1, Some err)
            | (m3, inr message) =>
                (mkHandler m3
                   (sent1 ++ [(ResponseChunk.SessionID chunk,
                               EvMessageComplete (Message.MessageID message)
                                                 (Message.TokenCount message))]),
                 None)
            end
          else (mkHandler m2 sent1, None)
      end
  end.

(** One tick of the goroutine started by [StartCleanup]: it calls
    [m.cleanup()] and nothing else. *)
Definition cleanupTick (now : Time) (h : Handler) : Handler :=
  mkHandler (buffer.cleanup now (bufferManager h)) (sent h).

End handlers.

(** * Vocabulary of the statements *)

Module BufferSpec.

(** [contiguous chunks next out]: [out] lists the chunks stored at
    [next], [next+1], ... up to the first gap, or up to and including the
    first chunk flagged final. *)
Inductive contiguous (chunks : gmap Z ResponseChunk.t)
    : Z → list ResponseChunk.t → Prop :=
| contiguous_gap next :
    chunks !! next = None → contiguous chunks next []
| contiguous_final next c :
    chunks !! next = Some c → ResponseChunk.IsFinal c = true →
    contiguous chunks next [c]
| contiguous_more next c out :
    chunks !! next = Some c → ResponseChunk.IsFinal c = false →
    contiguous chunks (next + 1) out →
    contiguous chunks next (c :: out).

(** The keys of a chunk map from [next] on: the measure of the loop of
    [GetNextChunks]. *)
Definition keysFrom (chunks : gmap Z ResponseChunk.t) (next : Z) : gset Z :=
  filter (λ k, next ≤ k) (dom chunks).

(** The state of the manager after [GetNextChunks] has emitted [n]
    chunks of the buffer [b] of message [messageID]. *)
Definition advanced (messageID : string) (b : ChunkBuffer.t) (n : nat)
    (m : buffer.Manager) : buffer.Manager :=
  buffer.setBuffers
    (<[messageID := ChunkBuffer.setNextToSend (ChunkBuffer.NextToSend b + Z.of_nat n) b]>
       (buffer.buffers m)) m.

(** [dense chunks final]: every sequence of [[0, final]] is stored. *)
Definition dense (chunks : gmap Z ResponseChunk.t) (final : Z) : Prop :=
  ∀ i, 0 ≤ i ≤ final → is_Some (chunks !! i).

(** The fragments stored at the sequences [0..final], in ascending
    order, that have type ["content"]. *)
Definition contentFragments (chunks : gmap Z ResponseChunk.t) (idxs : list Z)
    : list ResponseChunk.t :=
  filter (λ c, ResponseChunk.ChunkType c = "content"%string)
         (omap (λ i, chunks !! i) idxs).

Definition concatPayloads (l : list ResponseChunk.t) : string :=
  foldr (λ c acc, (ResponseChunk.Chunk c ++ acc)%string) ""%string l.

(** The numeric [tokens_used] field of a metadata bag, 0 when the bag or
    the field is absent or the field is not a number. *)
Definition tokensUsed (metadata : option (gmap string JValue)) : Z :=
  match metadata with
  | Some md =>
      match md !! "tokens_used"%string with
      | Some (JNumber f) => float64_to_int f
      | _ => 0
      end
  | None => 0
  end.

(** The fragment at [final] is the one fragment of [[0, final]] flagged
    final. *)
Definition soleFinal (chunks : gmap Z ResponseChunk.t) (final : Z)
    (cF : ResponseChunk.t) : Prop :=
  0 ≤ final
  ∧ chunks !! final = Some cF
  ∧ ResponseChunk.IsFinal cF = true
  ∧ ∀ i c, 0 ≤ i < final → chunks !! i = Some c → ResponseChunk.IsFinal c = false.

(** The buffer [AddChunk] works on: the one of the chunk's message, or
    the one it creates. *)
Definition targetBuffer (now : Time) (chunk : ResponseChunk.t)
    (m : buffer.Manager) : ChunkBuffer.t :=
  default (buffer.newBuffer now chunk)
          (buffer.buffers m !! ResponseChunk.MessageID chunk).

(** The operations of the buffer manager, and the state they leave. *)
Inductive op :=
| OpAddChunk (now : Time) (chunk : ResponseChunk.t)
| OpGetNextChunks (messageID : string)
| OpFinalizeMessage (now : Time) (messageID : string)
| OpGetState (messageID : string)
| OpCleanup (now : Time).

Definition run (o : op) (m : buffer.Manager) : buffer.Manager :=
  match o with
  | OpAddChunk now chunk => (buffer.AddChunk now chunk m).1
  | OpGetNextChunks messageID => (buffer.GetNextChunks messageID m).1
  | OpFinalizeMessage now messageID => (buffer.FinalizeMessage now messageID m).1
  | OpGetState messageID => (buffer.GetState messageID m).1
  | OpCleanup now => buffer.cleanup now m
  end.

Definition forallBuffers (P : ChunkBuffer.t → Prop) (m : buffer.Manager) : Prop :=
  ∀ messageID b, buffer.buffers m !! messageID = Some b → P b.

(** The invariant as the data model words it: [NextToSend <= MaxChunkID+1];
    [FinalChunkID >= MaxChunkID] once the final fragment is seen; no
    fragment below [NextToSend] is stored. *)
Definition releasedInv (b : ChunkBuffer.t) : Prop :=
  ChunkBuffer.NextToSend b ≤ ChunkBuffer.MaxChunkID b + 1
  ∧ (ChunkBuffer.IsFinal b = true →
     ChunkBuffer.MaxChunkID b ≤ ChunkBuffer.FinalChunkID b)
  ∧ ∀ k, is_Some (ChunkBuffer.Chunks b !! k) → ¬ k < ChunkBuffer.NextToSend b.

(** The invariant the counters keep on their own: [MaxChunkID] bounds the
    stored sequences, [NextToSend] stays in [[0, MaxChunkID+1]], and the
    fragments below [NextToSend] are all still stored. *)
Definition retainedInv (b : ChunkBuffer.t) : Prop :=
  0 ≤ ChunkBuffer.NextToSend b
  ∧ ChunkBuffer.NextToSend b ≤ ChunkBuffer.MaxChunkID b + 1
  ∧ (∀ k, is_Some (ChunkBuffer.Chunks b !! k) → k ≤ ChunkBuffer.MaxChunkID b)
  ∧ ∀ i, 0 ≤ i < ChunkBuffer.NextToSend b → is_Some (ChunkBuffer.Chunks b !! i).

Definition finalInv (b : ChunkBuffer.t) : Prop :=
  ChunkBuffer.IsFinal b = true →
  ChunkBuffer.MaxChunkID b ≤ ChunkBuffer.FinalChunkID b.

(** What the producer promises about a fragment, relative to the buffer
    it lands in: nothing comes after the final fragment, and the final
    fragment carries the largest sequence. *)
Definition producerOrder (b : ChunkBuffer.t) (chunk : ResponseChunk.t) : Prop :=
  (ChunkBuffer.IsFinal b = true →
   ResponseChunk.ChunkID chunk ≤ ChunkBuffer.FinalChunkID b)
  ∧ (ResponseChunk.IsFinal chunk = true →
     ChunkBuffer.MaxChunkID b ≤ ResponseChunk.ChunkID chunk).

Definition respectsProducer (o : op) (m : buffer.Manager) : Prop :=
  match o with
  | OpAddChunk now chunk => producerOrder (targetBuffer now chunk m) chunk
  | _ => True
  end.

(** Ingestion of a list of arrivals, each fragment with the time of its
    arrival, one [AddChunk] after the other; rejections are dropped, as
    the ingest loop does. *)
Definition ingest (arrivals : list (Time * ResponseChunk.t)) (m : buffer.Manager)
    : buffer.Manager :=
  foldl (λ m a, (buffer.AddChunk a.1 a.2 m).1) m arrivals.

(** [frags] are the fragments [0..N] of one message, in sequence order,
    the last one flagged final. *)
Definition fragmentsOf (messageID : string) (N : nat)
    (frags : list ResponseChunk.t) : Prop :=
  length frags = S N
  ∧ ∀ (i : nat) c, frags !! i = Some c →
      ResponseChunk.MessageID c = messageID
      ∧ ResponseChunk.ChunkID c = Z.of_nat i
      ∧ ResponseChunk.IsFinal c = bool_decide (i = N).

(** The [Content] of the message [FinalizeMessage] returns, [None] when
    it returns an error. *)
Definition finalizedContent (now : Time) (messageID : string)
    (m : buffer.Manager) : option string :=
  match (buffer.FinalizeMessage now messageID m).2 with
  | inr msg => Some (Message.Content msg)
  | inl _ => None
  end.

(** The text the fragments spell. *)
Definition textOf (frags : list ResponseChunk.t) : string :=
  concatPayloads (filter (λ c, ResponseChunk.ChunkType c = "content"%string) frags).

(** While the fragments of [frags] are ingested, the buffer of their
    message holds some of them, each under its sequence, and has seen the
    final fragment iff it holds fragment [N]. *)
Definition fragInv (N : nat) (frags : list ResponseChunk.t)
    (b : ChunkBuffer.t) : Prop :=
  (∀ k c, ChunkBuffer.Chunks b !! k = Some c →
     0 ≤ k ∧ frags !! Z.to_nat k = Some c)
  ∧ (ChunkBuffer.IsFinal b = true ↔ is_Some (ChunkBuffer.Chunks b !! Z.of_nat N))
  ∧ (ChunkBuffer.IsFinal b = true → ChunkBuffer.FinalChunkID b = Z.of_nat N).

(** What the admission checks of [AddChunk] see of the manager: the
    number of buffers, and the number of fragments in the buffer of the
    message, if it exists. *)
Definition occupancy (messageID : string) (m : buffer.Manager) : nat * option nat :=
  (size (buffer.buffers m),
   (λ b, size (ChunkBuffer.Chunks b)) <$> buffer.buffers m !! messageID).

(** The effect on the occupancy of ingesting a fragment of the message
    that is not stored yet. *)
Definition admission (maxBuffers maxChunks : Z) (s : nat * option nat) : nat * option nat :=
  if Z.of_nat s.1 >=? maxBuffers then s
  else
    match s.2 with
    | None => (S s.1, Some (if 0 >=? maxChunks then O else 1%nat))
    | Some n => (s.1, Some (if Z.of_nat n >=? maxChunks then n else S n))
    end.

End BufferSpec.

Module SseSpec.

(** A connection record is registered when the connections map holds
    it. *)
Definition registered (m : sse.Manager) (c : Connection.t) : Prop :=
  ∃ id, sse.connections m !! id = Some c.

(** Agreement of the two indices of the stream registry. *)
Definition indexInv (m : sse.Manager) : Prop :=
  (∀ id c, sse.connections m !! id = Some c →
     Connection.ID c = id ∧ c ∈ sse.sessionConns m (Connection.SessionID c))
  ∧ (∀ sid l, sse.sessions m !! sid = Some l →
       l ≠ [] ∧ NoDup l
       ∧ ∀ c, c ∈ l →
           Connection.SessionID c = sid
           ∧ sse.connections m !! Connection.ID c = Some c)
  ∧ size (sse.connections m) = sse.totalSessionConns m.

Definition totalLength (s : gmap string (list Connection.t)) : nat :=
  map_fold (λ (_ : string) (l : list Connection.t) acc, (length l + acc)%nat) 0%nat s.

End SseSpec.

(** Concrete fragments and managers used in the examples. *)
Module Examples.

Definition second : Duration := 1000000000.

(** A manager with the default timings of [config.Load]. *)
Definition manager (maxBuffers maxChunks : Z) : buffer.Manager :=
  buffer.NewManager maxBuffers maxChunks (300 * second) (30 * second) (30 * second).

(** A content fragment of session ["S1"]. *)
Definition frag (messageID : string) (chunkID : Z) (payload : string)
    (isFinal : bool) : ResponseChunk.t :=
  ResponseChunk.mk "S1" messageID chunkID payload "content" isFinal None None 0 "corr-1".

Definition usage : gmap string JValue :=
  {[ "tokens_used"%string := JNumber (QArith_base.Qmake 42 1) ]}.

(** The final fragment of a message, with a metadata bag. *)
Definition lastFrag (messageID : string) (chunkID : Z) (payload : string)
    : ResponseChunk.t :=
  ResponseChunk.mk "S1" messageID chunkID payload "content" true (Some usage) None 0 "corr-1".

(** The three fragments of message ["m1"]: "a", "b" and the final "c". *)
Definition f0 : ResponseChunk.t := frag "m1" 0 "a" false.
Definition f1 : ResponseChunk.t := frag "m1" 1 "b" false.
Definition f2 : ResponseChunk.t := lastFrag "m1" 2 "c".

(** The manager after the fragments of [l] have been ingested in order,
    one nanosecond apart. *)
Definition after (l : list ResponseChunk.t) (m : buffer.Manager) : buffer.Manager :=
  (foldl (λ st chunk, ((buffer.AddChunk st.2 chunk st.1).1, st.2 + 1)) (m, 0) l).1.

End Examples.

(** * Package [buffer]: the reorder buffers *)

Section GetNextChunks.
Import BufferSpec.

Lemma keysFrom_step chunks next c :
  chunks !! next = Some c →
  (size (keysFrom chunks (next + 1)) < size (keysFrom chunks next))%nat.
Proof.
  intros Hc. apply subset_size. unfold keysFrom. split.
  - intros k. rewrite !elem_of_filter. intros [? ?]. split; [lia | done].
  - intros Hsub.
    assert (Hin : next ∈ filter (λ k, next ≤ k) (dom chunks)).
    { apply elem_of_filter. split; [lia |]. apply elem_of_dom. eauto. }
    apply Hsub, elem_of_filter in Hin. lia.
Qed.

Lemma keysFrom_size chunks next : (size (keysFrom chunks next) ≤ size chunks)%nat.
Proof.
  rewrite <- (size_dom (D := gset Z)). apply subseteq_size.
  intros k. unfold keysFrom. rewrite elem_of_filter. tauto.
Qed.

(** With more fuel than keys from [next] on, the loop stops at a gap or
    after a final chunk, never for lack of fuel. *)
Lemma collect_fuel fuel chunks next :
  (size (keysFrom chunks next) < fuel)%nat →
  contiguous chunks next (buffer.collect fuel chunks next).1
  ∧ (buffer.collect fuel chunks next).2
    = next + Z.of_nat (length (buffer.collect fuel chunks next).1).
Proof.
  revert next. induction fuel as [|fuel IH]; intros next Hfuel; [lia |].
  simpl. destruct (chunks !! next) as [c|] eqn:Hc.
  - destruct (ResponseChunk.IsFinal c) eqn:Hfin.
    + simpl. split; [by apply contiguous_final | lia].
    + pose proof (keysFrom_step _ _ _ Hc) as Hlt.
      destruct (IH (next + 1)) as [Hrun Hnext]; [lia |].
      destruct (buffer.collect fuel chunks (next + 1)) as [rest next'].
      simpl in *. split; [by apply contiguous_more | lia].
  - simpl. split; [by apply contiguous_gap | lia].
Qed.

Lemma contiguous_lookup chunks next out :
  contiguous chunks next out →
  ∀ i : nat, (i < length out)%nat → out !! i = chunks !! (next + Z.of_nat i).
Proof.
  induction 1 as [next Hn | next c Hc Hf | next c out Hc Hf Hrun IH]; intros i Hi.
  - simpl in Hi. lia.
  - destruct i; simpl in *; [| lia]. by rewrite Z.add_0_r.
  - destruct i; simpl in *.
    + by rewrite Z.add_0_r.
    + rewrite IH; [| lia]. f_equal. lia.
Qed.

Lemma contiguous_final_last chunks next out :
  contiguous chunks next out →
  ∀ (i : nat) c, out !! i = Some c → ResponseChunk.IsFinal c = true →
                 S i = length out.
Proof.
  induction 1 as [next Hn | next c Hc Hf | next c out Hc Hf Hrun IH];
    intros i c' Hi Hfin.
  - done.
  - destruct i; [done |]. done.
  - destruct i; simpl in *.
    + congruence.
    + f_equal. eauto.
Qed.

Lemma contiguous_stop chunks next out :
  contiguous chunks next out →
  (∃ c, list.last out = Some c ∧ ResponseChunk.IsFinal c = true)
  ∨ chunks !! (next + Z.of_nat (length out)) = None.
Proof.
  induction 1 as [next Hn | next c Hc Hf | next c out Hc Hf Hrun IH].
  - right. simpl. by rewrite Z.add_0_r.
  - left. eauto.
  - destruct IH as [(c' & Hl & Hc') | Hgap].
    + left. exists c'. split; [| done].
      destruct out; [done |]. done.
    + right. simpl length. rewrite <- Hgap. f_equal. lia.
Qed.

Lemma contiguous_functional chunks next out1 out2 :
  contiguous chunks next out1 → contiguous chunks next out2 → out1 = out2.
Proof.
  intros H1. revert out2.
  induction H1 as [next Hn | next c Hc Hf | next c out Hc Hf Hrun IH];
    intros out2 H2; inversion H2; subst; try congruence.
  - replace c0 with c by congruence. f_equal. by apply IH.
Qed.

Lemma GetNextChunks_run messageID m b :
  buffer.buffers m !! messageID = Some b →
  ∃ out,
    contiguous (ChunkBuffer.Chunks b) (ChunkBuffer.NextToSend b) out
    ∧ buffer.GetNextChunks messageID m
      = (advanced messageID b (length out) m,
         inr (out,
              ChunkBuffer.IsFinal b
              && (ChunkBuffer.NextToSend b + Z.of_nat (length out)
                  >? ChunkBuffer.FinalChunkID b))).
Proof.
  intros Hb. unfold buffer.GetNextChunks. rewrite Hb.
  destruct (collect_fuel (S (size (ChunkBuffer.Chunks b))) (ChunkBuffer.Chunks b)
              (ChunkBuffer.NextToSend b)) as [Hrun Hnext].
  { pose proof (keysFrom_size (ChunkBuffer.Chunks b) (ChunkBuffer.NextToSend b)). lia. }
  destruct (buffer.collect _ _ _) as [out next]. simpl in *. subst next.
  exists out. split; [done |]. reflexivity.
Qed.

(** C2. For a live buffer, [GetNextChunks] returns exactly the fragments
    stored at the consecutive sequences from [NextToSend] on, up to the
    first gap, stopping right after a fragment flagged final; it moves
    [NextToSend] past the returned fragments; and the completion flag is
    [IsFinal && NextToSend > FinalChunkID], read after the move. *)
Theorem C2_GetNextChunks_contiguous_prefix messageID m b :
  buffer.buffers m !! messageID = Some b →
  ∃ out : list ResponseChunk.t,
    let next' := ChunkBuffer.NextToSend b + Z.of_nat (length out) in
    buffer.GetNextChunks messageID m
    = (buffer.setBuffers
         (<[messageID := ChunkBuffer.setNextToSend next' b]> (buffer.buffers m)) m,
       inr (out, ChunkBuffer.IsFinal b && (next' >? ChunkBuffer.FinalChunkID b)))
    ∧ (∀ i : nat, (i < length out)%nat →
         out !! i = ChunkBuffer.Chunks b !! (ChunkBuffer.NextToSend b + Z.of_nat i))
    ∧ (∀ (i : nat) c, out !! i = Some c → ResponseChunk.IsFinal c = true →
         S i = length out)
    ∧ ((∃ c, list.last out = Some c ∧ ResponseChunk.IsFinal c = true)
       ∨ ChunkBuffer.Chunks b !! next' = None).
Proof.
  intros Hb. destruct (GetNextChunks_run _ _ _ Hb) as (out & Hrun & Heq).
  exists out. simpl. split; [exact Heq |].
  split; [by apply contiguous_lookup |].
  split; [by eapply contiguous_final_last |].
  by apply contiguous_stop.
Qed.

End GetNextChunks.

Section FinalizeMessage.
Import BufferSpec.

Lemma string_append_assoc (a b c : string) :
  ((a ++ b) ++ c)%string = (a ++ (b ++ c))%string.
Proof.
  induction a as [|x a IH]; [done |].
  change (String x ((a ++ b) ++ c) = String x (a ++ (b ++ c)))%string.
  by rewrite IH.
Qed.

Lemma string_append_nil_r (a : string) : (a ++ "")%string = a.
Proof.
  induction a as [|x a IH]; [done |].
  change (String x (a ++ "") = String x a)%string. by rewrite IH.
Qed.

Lemma firstMissing_None chunks idxs :
  buffer.firstMissing chunks idxs = None ↔ ∀ i, i ∈ idxs → is_Some (chunks !! i).
Proof.
  induction idxs as [|i idxs IH]; simpl.
  - split; [intros _ i Hi; by apply elem_of_nil in Hi | done].
  - destruct (chunks !! i) as [c|] eqn:Hc.
    + rewrite IH. split.
      * intros H j Hj. apply elem_of_cons in Hj as [-> | Hj]; [eauto | by apply H].
      * intros H j Hj. apply H. by right.
    + split; [done |]. intros H.
      destruct (H i) as [c Hc']; [by left | congruence].
Qed.

Lemma firstMissing_dense chunks final :
  buffer.firstMissing chunks (seqZ 0 (final + 1)) = None ↔ dense chunks final.
Proof.
  rewrite firstMissing_None. unfold dense. split; intros H i Hi.
  - apply H, elem_of_seqZ. lia.
  - apply elem_of_seqZ in Hi. apply H. lia.
Qed.

(** The content component of the second loop. *)
Lemma assemble_content chunks idxs s t md :
  (foldl (buffer.assembleStep chunks) (s, t, md) idxs).1.1
  = (s ++ concatPayloads (contentFragments chunks idxs))%string.
Proof.
  revert s t md. induction idxs as [|i idxs IH]; intros s t md; simpl.
  - by rewrite string_append_nil_r.
  - unfold contentFragments in *. simpl.
    destruct (chunks !! i) as [c|] eqn:Hc; simpl.
    + rewrite filter_cons.
      destruct (String.eqb_spec (ResponseChunk.ChunkType c) "content") as [Ht | Ht].
      * rewrite decide_True by done.
        destruct (ResponseChunk.IsFinal c), (ResponseChunk.Metadata c);
          rewrite IH; simpl; by rewrite string_append_assoc.
      * rewrite decide_False by done.
        destruct (ResponseChunk.IsFinal c), (ResponseChunk.Metadata c);
          by rewrite IH.
    + apply IH.
Qed.

(** Chunks that are not flagged final leave tokens and metadata alone. *)
Lemma assemble_nonfinal chunks idxs s t md :
  (∀ i c, i ∈ idxs → chunks !! i = Some c → ResponseChunk.IsFinal c = false) →
  (foldl (buffer.assembleStep chunks) (s, t, md) idxs).1.2 = t
  ∧ (foldl (buffer.assembleStep chunks) (s, t, md) idxs).2 = md.
Proof.
  revert s. induction idxs as [|i idxs IH]; intros s Hnf; simpl; [done |].
  destruct (chunks !! i) as [c|] eqn:Hc.
  - rewrite (Hnf i c); [| by left | done].
    apply IH. intros j c' Hj. apply Hnf. by right.
  - apply IH. intros j c' Hj. apply Hnf. by right.
Qed.

Lemma assemble_soleFinal chunks final cF :
  soleFinal chunks final cF →
  (buffer.assemble chunks final).1.2 = tokensUsed (ResponseChunk.Metadata cF)
  ∧ (buffer.assemble chunks final).2 = ResponseChunk.Metadata cF.
Proof.
  intros (Hpos & HcF & Hfin & Hothers). unfold buffer.assemble.
  replace (final + 1) with (Z.of_nat (S (Z.to_nat final))) by lia.
  rewrite seqZ_S, foldl_app. simpl.
  destruct (assemble_nonfinal chunks (seqZ 0 (Z.of_nat (Z.to_nat final)))
              ""%string 0 None) as [Ht Hmd].
  { intros i c Hi. apply elem_of_seqZ in Hi. apply Hothers. lia. }
  destruct (foldl _ _ _) as [[s t] md]. simpl in Ht, Hmd. subst t md.
  replace (0 + Z.of_nat (Z.to_nat final)) with final by lia.
  simpl. rewrite HcF, Hfin.
  destruct (ResponseChunk.Metadata cF) as [md|]; simpl; [| done].
  unfold buffer.tokensOf. split; [| done].
  destruct (md !! "tokens_used"%string) as [[]|]; done.
Qed.

Lemma FinalizeMessage_not_found now messageID m :
  buffer.buffers m !! messageID = None →
  buffer.FinalizeMessage now messageID m
  = (m, inl (buffer.ErrBufferNotFound messageID)).
Proof. intros H. unfold buffer.FinalizeMessage. by rewrite H. Qed.

(** C3. On a live buffer, [FinalizeMessage] removes the buffer from the
    manager whatever the result; it succeeds exactly when the final
    fragment has been seen and every sequence of [[0, FinalChunkID]] is
    stored; and then [Content] is the concatenation, in ascending
    sequence order, of the payloads of the fragments of type ["content"],
    [Metadata] is the bag of the fragment flagged final and [TokenCount]
    its numeric [tokens_used] field (0 when absent). *)
Theorem C3_FinalizeMessage_assembles now messageID m b :
  buffer.buffers m !! messageID = Some b →
  let r := buffer.FinalizeMessage now messageID m in
  r.1 = buffer.setBuffers (delete messageID (buffer.buffers m)) m
  ∧ buffer.buffers r.1 !! messageID = None
  ∧ ((∃ msg, r.2 = inr msg)
     ↔ ChunkBuffer.IsFinal b = true
       ∧ dense (ChunkBuffer.Chunks b) (ChunkBuffer.FinalChunkID b))
  ∧ ∀ msg, r.2 = inr msg →
      Message.Content msg
      = concatPayloads
          (contentFragments (ChunkBuffer.Chunks b)
                            (seqZ 0 (ChunkBuffer.FinalChunkID b + 1)))
      ∧ ∀ cF, soleFinal (ChunkBuffer.Chunks b) (ChunkBuffer.FinalChunkID b) cF →
          Message.Metadata msg = ResponseChunk.Metadata cF
          ∧ Message.TokenCount msg = tokensUsed (ResponseChunk.Metadata cF).
Proof.
  intros Hb. unfold buffer.FinalizeMessage. rewrite Hb.
  destruct (ChunkBuffer.IsFinal b) eqn:Hfin; simpl.
  - destruct (buffer.firstMissing _ _) as [i|] eqn:Hmiss; simpl.
    + split; [done |]. split; [apply lookup_delete_eq |]. split.
      * split; [intros [msg ?]; done |]. intros [_ Hd].
        apply firstMissing_dense in Hd. congruence.
      * intros msg ?; done.
    + pose proof (assemble_content (ChunkBuffer.Chunks b)
                    (seqZ 0 (ChunkBuffer.FinalChunkID b + 1)) ""%string 0 None) as Hcontent.
      fold (buffer.assemble (ChunkBuffer.Chunks b) (ChunkBuffer.FinalChunkID b)) in Hcontent.
      pose proof (assemble_soleFinal (ChunkBuffer.Chunks b) (ChunkBuffer.FinalChunkID b))
        as Hsole.
      destruct (buffer.assemble _ _) as [[content tokens] metadata]. simpl in *.
      split; [done |]. split; [apply lookup_delete_eq |]. split.
      * split; [| eauto]. intros _. split; [done |]. by apply firstMissing_dense.
      * intros msg [= <-]. simpl. split; [done |].
        intros cF HcF. destruct (Hsole cF HcF) as [-> ->]. done.
  - split; [done |]. split; [apply lookup_delete_eq |]. split.
    + split; [intros [msg ?]; done | intros [? _]; done].
    + intros msg ?; done.
Qed.

End FinalizeMessage.

Section AddChunk.
Import BufferSpec.

Lemma setBuffers_id m : buffer.setBuffers (buffer.buffers m) m = m.
Proof. by destruct m. Qed.

(** The four ways through [AddChunk]. *)
Lemma AddChunk_cases now chunk m :
  let mid := ResponseChunk.MessageID chunk in
  let b := targetBuffer now chunk m in
  let m1 := buffer.setBuffers (<[mid := b]> (buffer.buffers m)) m in
  (buffer.maxBuffersPerPod m ≤ Z.of_nat (size (buffer.buffers m))
   ∧ buffer.AddChunk now chunk m
     = (m, Some (buffer.ErrBufferLimit (buffer.maxBuffersPerPod m))))
  ∨ (Z.of_nat (size (buffer.buffers m)) < buffer.maxBuffersPerPod m
     ∧ buffer.maxChunksPerBuffer m ≤ Z.of_nat (size (ChunkBuffer.Chunks b))
     ∧ buffer.AddChunk now chunk m
       = (m1, Some (buffer.ErrChunkLimit mid (buffer.maxChunksPerBuffer m))))
  ∨ (Z.of_nat (size (buffer.buffers m)) < buffer.maxBuffersPerPod m
     ∧ Z.of_nat (size (ChunkBuffer.Chunks b)) < buffer.maxChunksPerBuffer m
     ∧ is_Some (ChunkBuffer.Chunks b !! ResponseChunk.ChunkID chunk)
     ∧ buffer.AddChunk now chunk m = (m1, None))
  ∨ (Z.of_nat (size (buffer.buffers m)) < buffer.maxBuffersPerPod m
     ∧ Z.of_nat (size (ChunkBuffer.Chunks b)) < buffer.maxChunksPerBuffer m
     ∧ ChunkBuffer.Chunks b !! ResponseChunk.ChunkID chunk = None
     ∧ buffer.AddChunk now chunk m
       = (buffer.setBuffers
            (<[mid := buffer.storeChunk now chunk b]> (buffer.buffers m)) m,
          None)).
Proof.
  intros mid b m1. unfold buffer.AddChunk.
  rewrite Z.geb_leb. destruct (Z.leb_spec (buffer.maxBuffersPerPod m)
                                 (Z.of_nat (size (buffer.buffers m)))) as [Hfull | Hroom].
  { left. done. }
  right.
  assert (Hpair :
    match buffer.buffers m !! ResponseChunk.MessageID chunk with
    | Some b' => (b', m)
    | None =>
        (buffer.newBuffer now chunk,
         buffer.setBuffers
           (<[ResponseChunk.MessageID chunk := buffer.newBuffer now chunk]>
              (buffer.buffers m)) m)
    end = (b, m1)).
  { subst b m1 mid. unfold targetBuffer.
    destruct (buffer.buffers m !! ResponseChunk.MessageID chunk) as [b'|] eqn:Hb;
      simpl; [| done].
    by rewrite insert_id, setBuffers_id. }
  rewrite Hpair.
  assert (Hm1 : buffer.maxChunksPerBuffer m1 = buffer.maxChunksPerBuffer m) by done.
  rewrite Z.geb_leb.
  destruct (Z.leb_spec (buffer.maxChunksPerBuffer m)
              (Z.of_nat (size (ChunkBuffer.Chunks b)))) as [Hcap | Hfree].
  { left. done. }
  right.
  destruct (ChunkBuffer.Chunks b !! ResponseChunk.ChunkID chunk) as [existing|] eqn:Hdup.
  - left. repeat split; [done | done | eauto |].
    by destruct (negb _).
  - right. repeat split; [done | done |].
    subst m1. unfold buffer.setBuffers at 1. simpl.
    by rewrite insert_insert_eq.
Qed.

Lemma AddChunk_config now chunk m :
  buffer.maxBuffersPerPod (buffer.AddChunk now chunk m).1 = buffer.maxBuffersPerPod m
  ∧ buffer.maxChunksPerBuffer (buffer.AddChunk now chunk m).1
    = buffer.maxChunksPerBuffer m.
Proof.
  destruct (AddChunk_cases now chunk m)
    as [[_ ->] | [(_ & _ & ->) | [(_ & _ & _ & ->) | (_ & _ & _ & ->)]]]; done.
Qed.

(** Buffers of other messages are not touched. *)
Lemma AddChunk_frame now chunk m messageID :
  messageID ≠ ResponseChunk.MessageID chunk →
  buffer.buffers (buffer.AddChunk now chunk m).1 !! messageID
  = buffer.buffers m !! messageID.
Proof.
  intros Hne.
  destruct (AddChunk_cases now chunk m)
    as [[_ ->] | [(_ & _ & ->) | [(_ & _ & _ & ->) | (_ & _ & _ & ->)]]];
    simpl; by rewrite ?lookup_insert_ne.
Qed.

(** The buffer of the chunk's message afterwards: untouched, the target
    buffer as it was, or the target buffer with the chunk stored. *)
Lemma AddChunk_target now chunk m :
  let mid := ResponseChunk.MessageID chunk in
  let b := targetBuffer now chunk m in
  buffer.buffers (buffer.AddChunk now chunk m).1 !! mid = buffer.buffers m !! mid
  ∨ buffer.buffers (buffer.AddChunk now chunk m).1 !! mid = Some b
  ∨ (ChunkBuffer.Chunks b !! ResponseChunk.ChunkID chunk = None
     ∧ buffer.buffers (buffer.AddChunk now chunk m).1 !! mid
       = Some (buffer.storeChunk now chunk b)).
Proof.
  intros mid b.
  destruct (AddChunk_cases now chunk m)
    as [[_ ->] | [(_ & _ & ->) | [(_ & _ & _ & ->) | (_ & _ & Hnew & ->)]]]; simpl.
  - by left.
  - right; left. apply lookup_insert_eq.
  - right; left. apply lookup_insert_eq.
  - right; right. split; [done | apply lookup_insert_eq].
Qed.

End AddChunk.

Section Capacity.
Import BufferSpec Examples.

(** C5 (as the code has it). [AddChunk] rejects a fragment with the
    buffer-limit error exactly when the manager holds [maxBuffersPerPod]
    buffers or more, whether or not the fragment's message already has a
    buffer; the manager is then left as it was. *)
Theorem C5_buffer_limit_ignores_existing_buffer now chunk m :
  ((∃ max, (buffer.AddChunk now chunk m).2 = Some (buffer.ErrBufferLimit max))
   ↔ buffer.maxBuffersPerPod m ≤ Z.of_nat (size (buffer.buffers m)))
  ∧ (buffer.maxBuffersPerPod m ≤ Z.of_nat (size (buffer.buffers m)) →
     buffer.AddChunk now chunk m
     = (m, Some (buffer.ErrBufferLimit (buffer.maxBuffersPerPod m)))).
Proof.
  destruct (AddChunk_cases now chunk m)
    as [[Hfull Heq] | [(Hroom & _ & Heq) | [(Hroom & _ & _ & Heq) | (Hroom & _ & _ & Heq)]]];
    rewrite Heq; simpl.
  - split; [| done]. split; [done | eauto].
  - split; [| lia]. split; [intros [max [=]] | lia].
  - split; [| lia]. split; [intros [max [=]] | lia].
  - split; [| lia]. split; [intros [max [=]] | lia].
Qed.

(** A manager configured for one buffer that holds the buffer of message
    ["m1"]: the next fragment of ["m1"] is rejected for manager capacity
    although its message has a buffer. *)
Lemma C5_counterexample :
  let m := after [frag "m1" 0 "a" false] (manager 1 10) in
  is_Some (buffer.buffers m !! "m1"%string)
  ∧ (buffer.AddChunk 1 (frag "m1" 1 "b" true) m).2 = Some (buffer.ErrBufferLimit 1).
Proof. split; [eexists |]; vm_compute; reflexivity. Qed.

(** C4 (as the code has it). A fragment whose (message, sequence) is
    already stored, with the stored payload, leaves the manager and its
    buffers exactly as they were, so every later [GetNextChunks] answers
    as in a run without the duplicate.  It is absorbed with success when
    both capacity checks, which come first, pass; a full manager or a
    full buffer rejects it with the capacity error. *)
Theorem C4_duplicate_leaves_manager_unchanged now chunk m b existing :
  buffer.buffers m !! ResponseChunk.MessageID chunk = Some b →
  ChunkBuffer.Chunks b !! ResponseChunk.ChunkID chunk = Some existing →
  ResponseChunk.Chunk existing = ResponseChunk.Chunk chunk →
  (buffer.AddChunk now chunk m).1 = m
  ∧ (Z.of_nat (size (buffer.buffers m)) < buffer.maxBuffersPerPod m →
     Z.of_nat (size (ChunkBuffer.Chunks b)) < buffer.maxChunksPerBuffer m →
     (buffer.AddChunk now chunk m).2 = None)
  ∧ (buffer.maxBuffersPerPod m ≤ Z.of_nat (size (buffer.buffers m)) →
     (buffer.AddChunk now chunk m).2
     = Some (buffer.ErrBufferLimit (buffer.maxBuffersPerPod m)))
  ∧ (Z.of_nat (size (buffer.buffers m)) < buffer.maxBuffersPerPod m →
     buffer.maxChunksPerBuffer m ≤ Z.of_nat (size (ChunkBuffer.Chunks b)) →
     (buffer.AddChunk now chunk m).2
     = Some (buffer.ErrChunkLimit (ResponseChunk.MessageID chunk)
                                  (buffer.maxChunksPerBuffer m)))
  ∧ ∀ messageID,
      buffer.GetNextChunks messageID (buffer.AddChunk now chunk m).1
      = buffer.GetNextChunks messageID m.
Proof.
  intros Hb Hdup _.
  assert (Htarget : targetBuffer now chunk m = b).
  { unfold targetBuffer. by rewrite Hb. }
  assert (Hm1 : buffer.setBuffers
                  (<[ResponseChunk.MessageID chunk := b]> (buffer.buffers m)) m = m).
  { by rewrite insert_id, setBuffers_id. }
  pose proof (AddChunk_cases now chunk m) as Hcases. simpl in Hcases.
  rewrite Htarget, Hm1 in Hcases.
  destruct Hcases
    as [[Hfull Heq] | [(Hroom & Hcap & Heq) | [(Hroom & Hfree & _ & Heq)
                                              | (_ & _ & Hnew & _)]]];
    [| | | congruence]; rewrite Heq; simpl;
    (split; [done |]); (split; [intros; first [done | lia] |]);
    (split; [intros; first [done | lia] |]);
    (split; [intros; first [done | lia] |]); done.
Qed.

Lemma C4_witness :
  let m := after [frag "m1" 0 "a" false] (manager 10 10) in
  let dup := frag "m1" 0 "a" false in
  (buffer.AddChunk 7 dup m).1 = m ∧ (buffer.AddChunk 7 dup m).2 = None.
Proof.
  intros m dup.
  destruct (C4_duplicate_leaves_manager_unchanged 7 dup m (targetBuffer 0 dup m) dup)
    as (Hsame & Hok & _); [vm_compute; reflexivity ..|].
  split; [exact Hsame |]. apply Hok; vm_compute; reflexivity.
Defined.

(** A buffer that holds as many fragments as [maxChunksPerBuffer] allows
    answers a duplicate of a stored fragment with the chunk-limit error,
    not with success. *)
Lemma C4_counterexample :
  let m := after [frag "m1" 0 "a" false] (manager 10 1) in
  let dup := frag "m1" 0 "a" false in
  (∃ b existing,
      buffer.buffers m !! ResponseChunk.MessageID dup = Some b
      ∧ ChunkBuffer.Chunks b !! ResponseChunk.ChunkID dup = Some existing
      ∧ ResponseChunk.Chunk existing = ResponseChunk.Chunk dup)
  ∧ (buffer.AddChunk 7 dup m).2 = Some (buffer.ErrChunkLimit "m1" 1).
Proof.
  intros m dup. split.
  - exists (targetBuffer 0 dup m), dup. repeat split; vm_compute; reflexivity.
  - vm_compute; reflexivity.
Qed.

End Capacity.

Section Invariant.
Import BufferSpec Examples.

Lemma forallBuffers_mono (P : ChunkBuffer.t → Prop) m m' :
  (∀ k b, buffer.buffers m' !! k = Some b → buffer.buffers m !! k = Some b) →
  forallBuffers P m → forallBuffers P m'.
Proof. intros Hsub HP k b Hb. eapply HP, Hsub, Hb. Qed.

Lemma forallBuffers_insert (P : ChunkBuffer.t → Prop) m k b :
  P b → forallBuffers P m →
  forallBuffers P (buffer.setBuffers (<[k := b]> (buffer.buffers m)) m).
Proof.
  intros Hb HP k' b'. simpl. rewrite lookup_insert_Some.
  intros [[_ <-] | [_ Hb']]; [done | by eapply HP].
Qed.

Lemma targetBuffer_inv (P : ChunkBuffer.t → Prop) now chunk m :
  P (buffer.newBuffer now chunk) → forallBuffers P m →
  P (targetBuffer now chunk m).
Proof.
  intros Hnew HP. unfold targetBuffer.
  destruct (buffer.buffers m !! ResponseChunk.MessageID chunk) as [b|] eqn:Hb;
    simpl; [by eapply HP | done].
Qed.

Lemma retainedInv_newBuffer now chunk : retainedInv (buffer.newBuffer now chunk).
Proof.
  unfold retainedInv. simpl. repeat split; try lia.
  intros k [c Hc]. by rewrite lookup_empty in Hc.
Qed.

Lemma finalInv_newBuffer now chunk : finalInv (buffer.newBuffer now chunk).
Proof. unfold finalInv. simpl. done. Qed.

Lemma retainedInv_storeChunk now chunk b :
  retainedInv b → retainedInv (buffer.storeChunk now chunk b).
Proof.
  intros (Hpos & Hnext & Hmax & Hkept). unfold retainedInv. simpl.
  destruct (Z.gtb_spec (ResponseChunk.ChunkID chunk) (ChunkBuffer.MaxChunkID b)).
  - repeat split; [done | lia | |].
    + intros k. rewrite lookup_insert_is_Some'. intros [<- | Hk]; [lia |].
      specialize (Hmax k Hk). lia.
    + intros i Hi. apply lookup_insert_is_Some'. right. by apply Hkept.
  - repeat split; [done | lia | |].
    + intros k. rewrite lookup_insert_is_Some'. intros [<- | Hk]; [lia |].
      by apply Hmax.
    + intros i Hi. apply lookup_insert_is_Some'. right. by apply Hkept.
Qed.

Lemma finalInv_storeChunk now chunk b :
  finalInv b → producerOrder b chunk →
  finalInv (buffer.storeChunk now chunk b).
Proof.
  unfold finalInv, producerOrder. intros Hfin [Hafter Hlast]. simpl.
  destruct (ResponseChunk.IsFinal chunk) eqn:Hc; intros Hb.
  - specialize (Hlast eq_refl).
    destruct (Z.gtb_spec (ResponseChunk.ChunkID chunk) (ChunkBuffer.MaxChunkID b)); lia.
  - specialize (Hfin Hb). specialize (Hafter Hb).
    destruct (Z.gtb_spec (ResponseChunk.ChunkID chunk) (ChunkBuffer.MaxChunkID b)); lia.
Qed.

Lemma retainedInv_advance b out :
  contiguous (ChunkBuffer.Chunks b) (ChunkBuffer.NextToSend b) out →
  retainedInv b →
  retainedInv (ChunkBuffer.setNextToSend
                 (ChunkBuffer.NextToSend b + Z.of_nat (length out)) b).
Proof.
  intros Hrun (Hpos & Hnext & Hmax & Hkept).
  pose proof (contiguous_lookup _ _ _ Hrun) as Hout.
  assert (Hstored : ∀ j : nat, (j < length out)%nat →
            is_Some (ChunkBuffer.Chunks b !! (ChunkBuffer.NextToSend b + Z.of_nat j))).
  { intros j Hj. rewrite <- Hout by done. by apply lookup_lt_is_Some. }
  unfold retainedInv. simpl. repeat split; [lia | | done |].
  - destruct out as [|c out']; [simpl; lia |].
    specialize (Hstored (length out') ltac:(simpl; lia)).
    apply Hmax in Hstored. simpl length. lia.
  - intros i Hi.
    destruct (decide (i < ChunkBuffer.NextToSend b)) as [Hlt | Hge];
      [apply Hkept; lia |].
    replace i with (ChunkBuffer.NextToSend b
                    + Z.of_nat (Z.to_nat (i - ChunkBuffer.NextToSend b))) by lia.
    apply Hstored. lia.
Qed.

Lemma cleanup_lookup now m k b :
  buffer.buffers (buffer.cleanup now m) !! k = Some b
  ↔ buffer.buffers m !! k = Some b
    ∧ buffer.isEvicted now (buffer.maxBufferAge m) b = false.
Proof.
  unfold buffer.cleanup, buffer.staleBuffers. simpl.
  rewrite lookup_foldr_delete_Some, list_elem_of_fmap. split.
  - intros [Hnot Hb]. split; [done |].
    destruct (buffer.isEvicted now (buffer.maxBufferAge m) b) eqn:Hev; [| done].
    exfalso. apply Hnot. exists (k, b). split; [done |].
    apply list_elem_of_filter. split; [done |]. by apply elem_of_map_to_list.
  - intros [Hb Hkeep]. split; [| done].
    intros ([k' b'] & -> & Hin). apply list_elem_of_filter in Hin as [Hev Hin].
    apply elem_of_map_to_list in Hin. simpl in *. congruence.
Qed.

(** Every operation keeps a property that holds of a new buffer, survives
    storing a chunk that the operation is allowed to store, and does not
    depend on [NextToSend] moving along a contiguous run. *)
Lemma run_preserves (P : ChunkBuffer.t → Prop) o m :
  (∀ now chunk, P (buffer.newBuffer now chunk)) →
  (∀ now chunk, o = OpAddChunk now chunk →
     P (targetBuffer now chunk m) →
     P (buffer.storeChunk now chunk (targetBuffer now chunk m))) →
  (∀ b out, contiguous (ChunkBuffer.Chunks b) (ChunkBuffer.NextToSend b) out →
     P b →
     P (ChunkBuffer.setNextToSend
          (ChunkBuffer.NextToSend b + Z.of_nat (length out)) b)) →
  forallBuffers P m → forallBuffers P (run o m).
Proof.
  intros Hnew Hstore Hadv HP.
  destruct o as [now chunk | mid | now mid | mid | now]; simpl.
  - pose proof (targetBuffer_inv P now chunk m (Hnew _ _) HP) as Htarget.
    destruct (AddChunk_cases now chunk m)
      as [[_ ->] | [(_ & _ & ->) | [(_ & _ & _ & ->) | (_ & _ & _ & ->)]]]; simpl.
    + done.
    + by apply forallBuffers_insert.
    + by apply forallBuffers_insert.
    + apply forallBuffers_insert; [| done]. by apply Hstore.
  - destruct (buffer.buffers m !! mid) as [b|] eqn:Hb.
    + destruct (GetNextChunks_run _ _ _ Hb) as (out & Hrun & ->). simpl.
      apply forallBuffers_insert; [| done]. apply Hadv; [done |]. by eapply HP.
    + unfold buffer.GetNextChunks. by rewrite Hb.
  - eapply forallBuffers_mono; [| exact HP].
    intros k b. unfold buffer.FinalizeMessage.
    destruct (buffer.buffers m !! mid) as [b'|] eqn:Hb; simpl; [| done].
    assert (Hdel : delete mid (buffer.buffers m) !! k = Some b →
                   buffer.buffers m !! k = Some b).
    { rewrite lookup_delete_Some. tauto. }
    destruct (negb _); simpl; [done |].
    destruct (buffer.firstMissing _ _); simpl; [done |].
    by destruct (buffer.assemble _ _) as [[? ?] ?].
  - eapply forallBuffers_mono; [| exact HP].
    intros k b. unfold buffer.GetState.
    destruct (buffer.buffers m !! mid) as [b'|]; simpl; [| done].
    by destruct (ChunkBuffer.IsFinal b').
  - eapply forallBuffers_mono; [| exact HP].
    intros k b. rewrite cleanup_lookup. tauto.
Qed.

(** C8 (as the code has it). Every operation of the buffer manager keeps,
    for each live buffer: [NextToSend <= MaxChunkID+1], with [MaxChunkID]
    a bound of the stored sequences, and every sequence below
    [NextToSend] still stored (emitted fragments stay in the map until
    the buffer goes).  [FinalChunkID >= MaxChunkID] once the final
    fragment is seen is kept by every operation as long as the fragments
    ingested come in the producer's order. *)
Theorem C8_operations_preserve_invariant o m :
  (forallBuffers retainedInv m → forallBuffers retainedInv (run o m))
  ∧ (forallBuffers finalInv m → respectsProducer o m →
     forallBuffers finalInv (run o m)).
Proof.
  split.
  - apply run_preserves.
    + apply retainedInv_newBuffer.
    + intros now chunk _. apply retainedInv_storeChunk.
    + apply retainedInv_advance.
  - intros HP Hprod. revert HP. apply run_preserves.
    + apply finalInv_newBuffer.
    + intros now chunk -> Hb. by apply finalInv_storeChunk.
    + intros b out _ Hb. exact Hb.
Qed.

Lemma NewManager_invariant maxBuffers maxChunks maxAge interval timeout :
  forallBuffers retainedInv
    (buffer.NewManager maxBuffers maxChunks maxAge interval timeout)
  ∧ forallBuffers finalInv
      (buffer.NewManager maxBuffers maxChunks maxAge interval timeout).
Proof. split; intros k b Hb; simpl in Hb; by rewrite lookup_empty in Hb. Qed.

Lemma C8_witness :
  let m := after [frag "m1" 1 "b" false] (manager 10 10) in
  forallBuffers retainedInv (run (OpAddChunk 5 (frag "m1" 0 "a" false)) m)
  ∧ forallBuffers finalInv (run (OpAddChunk 5 (frag "m1" 0 "a" false)) m).
Proof.
  intros m.
  assert (Hm : forallBuffers retainedInv m ∧ forallBuffers finalInv m).
  { pose proof (NewManager_invariant 10 10 (300 * second) (30 * second) (30 * second))
      as [Hr Hf].
    split.
    - apply (run_preserves retainedInv (OpAddChunk 0 (frag "m1" 1 "b" false))
               (manager 10 10));
        [apply retainedInv_newBuffer
        | intros; by apply retainedInv_storeChunk
        | apply retainedInv_advance | exact Hr].
    - apply (run_preserves finalInv (OpAddChunk 0 (frag "m1" 1 "b" false))
               (manager 10 10));
        [apply finalInv_newBuffer
        | intros ? ? [= <- <-] ?; apply finalInv_storeChunk; [done |];
          split; intros [=]
        | by intros | exact Hf]. }
  destruct Hm as [Hr Hf].
  destruct (C8_operations_preserve_invariant (OpAddChunk 5 (frag "m1" 0 "a" false)) m)
    as [Hkeep Hfinal].
  split; [exact (Hkeep Hr) |]. apply (Hfinal Hf).
  split; intros [=].
Defined.

(** Two runs that break the invariant of the data model: after
    [GetNextChunks] has emitted fragment 0 it is still stored below
    [NextToSend]; and a fragment that arrives after the final one with a
    larger sequence lifts [MaxChunkID] above [FinalChunkID]. *)
Lemma C8_counterexample :
  let m := after [frag "m1" 0 "a" false] (manager 10 10) in
  let m' := after [frag "m1" 0 "a" true] (manager 10 10) in
  (forallBuffers releasedInv m
   ∧ ¬ forallBuffers releasedInv (run (OpGetNextChunks "m1") m))
  ∧ (forallBuffers releasedInv m'
     ∧ ¬ forallBuffers releasedInv (run (OpAddChunk 1 (frag "m1" 1 "b" false)) m')).
Proof.
  intros m m'.
  assert (Hsingle : ∀ (P : ChunkBuffer.t → Prop) (b : ChunkBuffer.t) m0,
            buffer.buffers m0 = {[ "m1"%string := b ]} → P b → forallBuffers P m0).
  { intros P b m0 Hm0 HP k b' Hb'. rewrite Hm0 in Hb'.
    apply lookup_singleton_Some in Hb' as [_ <-]. exact HP. }
  split; split.
  - apply (Hsingle _ (ChunkBuffer.mk "S1" "m1" {[ 0 := frag "m1" 0 "a" false ]}
                        0 0 false 0 0 0));
      [vm_compute; reflexivity |].
    unfold releasedInv. simpl. repeat split; [lia | done |].
    intros k [c Hc]. apply lookup_singleton_Some in Hc as [<- _]. lia.
  - intros Hinv.
    destruct (Hinv "m1"%string
                (ChunkBuffer.setNextToSend 1 (targetBuffer 0 (frag "m1" 0 "a" false) m)))
      as (_ & _ & Hrel); [vm_compute; reflexivity |].
    apply (Hrel 0); [eexists; vm_compute; reflexivity | simpl; lia].
  - apply (Hsingle _ (ChunkBuffer.mk "S1" "m1" {[ 0 := frag "m1" 0 "a" true ]}
                        0 0 true 0 0 0));
      [vm_compute; reflexivity |].
    unfold releasedInv. simpl. repeat split; [lia | lia |].
    intros k [c Hc]. apply lookup_singleton_Some in Hc as [<- _]. lia.
  - intros Hinv.
    destruct (Hinv "m1"%string
                (buffer.storeChunk 1 (frag "m1" 1 "b" false)
                   (targetBuffer 0 (frag "m1" 0 "a" true) m')))
      as (_ & Hfin & _); [vm_compute; reflexivity |].
    specialize (Hfin eq_refl). vm_compute in Hfin. by apply Hfin.
Qed.

End Invariant.

Section Sweeper.
Import BufferSpec Examples.

(** What a pass of [cleanup] keeps: the buffers that have not seen their
    final fragment and were updated within [maxBufferAge]. *)
Lemma cleanup_keeps now m k b :
  buffer.buffers (buffer.cleanup now m) !! k = Some b
  ↔ buffer.buffers m !! k = Some b
    ∧ ChunkBuffer.IsFinal b = false
    ∧ now - buffer.maxBufferAge m ≤ ChunkBuffer.UpdatedAt b.
Proof.
  rewrite cleanup_lookup. unfold buffer.isEvicted.
  rewrite orb_false_iff, Z.ltb_ge. tauto.
Qed.

(** [missingChunkTimeout] has no part in a pass. *)
Lemma cleanup_ignores_missingChunkTimeout now m timeout :
  buffer.buffers
    (buffer.cleanup now
       (buffer.mkManager (buffer.buffers m) (buffer.maxBuffersPerPod m)
          (buffer.maxChunksPerBuffer m) (buffer.maxBufferAge m)
          (buffer.cleanupInterval m) timeout))
  = buffer.buffers (buffer.cleanup now m).
Proof. reflexivity. Qed.

(** C6 (what the code does, against the claim). A buffer that has seen its
    final fragment and still misses a sequence of [[0, FinalChunkID]] is
    evicted by the next pass of the sweeper whatever its age, also well
    before [missingChunkTimeout] has elapsed: the timeout is stored and
    never read.  The pass sends no event, so no [message_complete] is
    emitted for it. *)
Theorem C6_sweeper_evicts_final_buffer_at_once now h messageID b :
  buffer.buffers (handlers.bufferManager h) !! messageID = Some b →
  ChunkBuffer.IsFinal b = true →
  ¬ dense (ChunkBuffer.Chunks b) (ChunkBuffer.FinalChunkID b) →
  buffer.buffers (handlers.bufferManager (handlers.cleanupTick now h)) !! messageID
  = None
  ∧ handlers.sent (handlers.cleanupTick now h) = handlers.sent h.
Proof.
  intros Hb Hfin _. split; [| done]. simpl.
  destruct (buffer.buffers (buffer.cleanup now (handlers.bufferManager h)) !! messageID)
    as [b'|] eqn:Hb'; [| done].
  apply cleanup_keeps in Hb' as (Hb'' & Hnot & _). congruence.
Qed.

Lemma C6_witness :
  let h := handlers.mkHandler (after [lastFrag "m1" 1 "b"] (manager 10 10)) [] in
  buffer.buffers (handlers.bufferManager (handlers.cleanupTick (40 * second) h))
    !! "m1"%string = None
  ∧ handlers.sent (handlers.cleanupTick (40 * second) h) = [].
Proof.
  intros h.
  apply (C6_sweeper_evicts_final_buffer_at_once (40 * second) h "m1"
           (targetBuffer 0 (lastFrag "m1" 1 "b") (handlers.bufferManager h)));
    [vm_compute; reflexivity | vm_compute; reflexivity |].
  intros Hdense. destruct (Hdense 0) as [c Hc]; [vm_compute; split; discriminate |].
  vm_compute in Hc. discriminate.
Defined.

(** The final fragment 1 of ["m1"] arrives at time 0, fragment 0 is
    missing.  A pass one second later, well within the 30 s of
    [missingChunkTimeout], evicts the buffer. *)
Lemma sweeper_evicts_within_missingChunkTimeout :
  let m := after [lastFrag "m1" 1 "b"] (manager 10 10) in
  let now := 1 * second in
  (∃ b, buffer.buffers m !! "m1"%string = Some b
        ∧ ChunkBuffer.IsFinal b = true
        ∧ ChunkBuffer.FinalChunkID b = 1
        ∧ ChunkBuffer.Chunks b !! 0 = None
        ∧ now - ChunkBuffer.UpdatedAt b < buffer.missingChunkTimeout m)
  ∧ buffer.buffers (buffer.cleanup now m) !! "m1"%string = None.
Proof.
  intros m now. split.
  - exists (targetBuffer 0 (lastFrag "m1" 1 "b") m).
    repeat split; vm_compute; reflexivity.
  - vm_compute; reflexivity.
Qed.

(** The consequence on the ingest path.  The final fragment 2 of ["m1"]
    arrives first; a pass of the sweeper one second later evicts the
    buffer; fragments 0 and 1 arrive within the next two seconds.  The
    session is sent fragments 0 and 1 and never a [message_complete]
    event, and a buffer that cannot complete is left behind.  Without the
    pass the same arrivals send the three fragments and the
    [message_complete] event. *)
Lemma evicted_message_never_completes :
  let h0 := handlers.mkHandler (manager 10 10) [] in
  let h1 := (handlers.HandleResponseChunk 0 f2 h0).1 in
  let swept := handlers.cleanupTick (1 * second) h1 in
  let late h :=
    (handlers.HandleResponseChunk (3 * second) f1
       (handlers.HandleResponseChunk (2 * second) f0 h).1).1 in
  handlers.sent (late swept)
  = [("S1"%string, handlers.EvChunk f0); ("S1"%string, handlers.EvChunk f1)]
  ∧ (∃ b, buffer.buffers (handlers.bufferManager (late swept)) !! "m1"%string = Some b
          ∧ ChunkBuffer.IsFinal b = false)
  ∧ handlers.sent (late h1)
    = [("S1"%string, handlers.EvChunk f0); ("S1"%string, handlers.EvChunk f1);
       ("S1"%string, handlers.EvChunk f2);
       ("S1"%string, handlers.EvMessageComplete "m1" 42)].
Proof.
  intros h0 h1 swept late. split; [vm_compute; reflexivity |]. split.
  - eexists. split; vm_compute; reflexivity.
  - vm_compute; reflexivity.
Qed.

End Sweeper.

Section ArrivalOrder.
Import BufferSpec Examples.

Variable messageID : string.
Variable N : nat.
Variable frags : list ResponseChunk.t.
Hypothesis Hfrags : fragmentsOf messageID N frags.

Lemma frags_elem c :
  c ∈ frags →
  ∃ i : nat, frags !! i = Some c
    ∧ ResponseChunk.MessageID c = messageID
    ∧ ResponseChunk.ChunkID c = Z.of_nat i
    ∧ ResponseChunk.IsFinal c = bool_decide (i = N).
Proof.
  intros [i Hi]%list_elem_of_lookup. exists i. split; [done |].
  by apply (proj2 Hfrags).
Qed.

Lemma frags_NoDup : NoDup (ResponseChunk.ChunkID <$> frags).
Proof.
  apply NoDup_alt. intros i j x. rewrite !list_lookup_fmap.
  destruct (frags !! i) as [ci|] eqn:Hi; [| done].
  destruct (frags !! j) as [cj|] eqn:Hj; [| done]. simpl.
  destruct (proj2 Hfrags _ _ Hi) as (_ & Hci & _).
  destruct (proj2 Hfrags _ _ Hj) as (_ & Hcj & _).
  intros [= <-] [= Heq]. lia.
Qed.

Lemma fragInv_newBuffer now c : fragInv N frags (buffer.newBuffer now c).
Proof.
  unfold fragInv. simpl. split; [| split].
  - intros k c'. by rewrite lookup_empty.
  - rewrite lookup_empty. split; [done | by intros [? ?]].
  - done.
Qed.

Lemma fragInv_storeChunk now c b :
  c ∈ frags → fragInv N frags b → fragInv N frags (buffer.storeChunk now c b).
Proof.
  intros (i & Hi & _ & Hid & Hfin)%frags_elem (Hsub & Hseen & Hseq).
  unfold fragInv. simpl. rewrite Hid, Hfin. split; [| split].
  - intros k c'. rewrite lookup_insert_Some.
    intros [[<- <-] | [_ Hk]]; [| by apply Hsub].
    split; [lia |]. by rewrite Nat2Z.id.
  - case_bool_decide as HiN.
    + subst i. rewrite lookup_insert_eq. split; [eauto | done].
    + rewrite lookup_insert_ne by lia. exact Hseen.
  - case_bool_decide as HiN; [by subst i | exact Hseq].
Qed.

(** The buffer of the message keeps [fragInv] under [AddChunk]. *)
Lemma AddChunk_fragInv now c m :
  c ∈ frags →
  (∀ b, buffer.buffers m !! messageID = Some b → fragInv N frags b) →
  ∀ b, buffer.buffers (buffer.AddChunk now c m).1 !! messageID = Some b →
       fragInv N frags b.
Proof.
  intros Hc Hm b.
  destruct (frags_elem c Hc) as (i & _ & Hmid & _).
  assert (Htarget : fragInv N frags (targetBuffer now c m)).
  { unfold targetBuffer. rewrite Hmid.
    destruct (buffer.buffers m !! messageID) as [b0|] eqn:Hb0; simpl;
      [by apply Hm | apply fragInv_newBuffer]. }
  destruct (AddChunk_target now c m) as [Heq | [Heq | [_ Heq]]];
    rewrite Hmid in Heq; rewrite Heq.
  - apply Hm.
  - by intros [= <-].
  - intros [= <-]. by apply fragInv_storeChunk.
Qed.

Lemma AddChunk_stored now c m b' k :
  ResponseChunk.MessageID c = messageID →
  buffer.buffers (buffer.AddChunk now c m).1 !! messageID = Some b' →
  is_Some (ChunkBuffer.Chunks b' !! k) →
  k = ResponseChunk.ChunkID c
  ∨ ∃ b, buffer.buffers m !! messageID = Some b
         ∧ is_Some (ChunkBuffer.Chunks b !! k).
Proof.
  intros Hmid Hb' Hk.
  assert (Htarget : ∀ k, is_Some (ChunkBuffer.Chunks (targetBuffer now c m) !! k) →
            ∃ b, buffer.buffers m !! messageID = Some b
                 ∧ is_Some (ChunkBuffer.Chunks b !! k)).
  { intros k'. unfold targetBuffer. rewrite Hmid.
    destruct (buffer.buffers m !! messageID) as [b0|] eqn:Hb0; simpl; [eauto |].
    rewrite lookup_empty. by intros [? ?]. }
  destruct (AddChunk_target now c m) as [Heq | [Heq | [_ Heq]]];
    rewrite Hmid in Heq; rewrite Heq in Hb'.
  - right. eauto.
  - injection Hb' as <-. right. by apply Htarget.
  - injection Hb' as <-. simpl in Hk.
    apply lookup_insert_is_Some' in Hk as [<- | Hk]; [by left |].
    right. by apply Htarget.
Qed.

(** A fragment of the message that is not stored yet moves the occupancy
    by [admission], whatever the fragment is. *)
Lemma AddChunk_occupancy now c m :
  ResponseChunk.MessageID c = messageID →
  (∀ b, buffer.buffers m !! messageID = Some b →
        ChunkBuffer.Chunks b !! ResponseChunk.ChunkID c = None) →
  occupancy messageID (buffer.AddChunk now c m).1
  = admission (buffer.maxBuffersPerPod m) (buffer.maxChunksPerBuffer m)
          (occupancy messageID m).
Proof.
  intros Hmid Hnew. unfold occupancy, admission. simpl.
  pose proof (AddChunk_cases now c m) as Hcases. simpl in Hcases.
  unfold targetBuffer in Hcases. rewrite Hmid in Hcases.
  rewrite !Z.geb_leb.
  destruct (buffer.buffers m !! messageID) as [b|] eqn:Hb; simpl in *.
  - specialize (Hnew b eq_refl).
    destruct Hcases
      as [[Hfull ->] | [(Hroom & Hcap & ->) | [(Hroom & Hfree & [? Hdup] & ->)
                                              | (Hroom & Hfree & _ & ->)]]];
      simpl; rewrite ?Z.geb_leb.
    + rewrite (proj2 (Z.leb_le _ _) Hfull). by rewrite Hb.
    + rewrite (proj2 (Z.leb_gt _ _) Hroom), (proj2 (Z.leb_le _ _) Hcap).
      rewrite insert_id by done. by rewrite Hb.
    + congruence.
    + rewrite (proj2 (Z.leb_gt _ _) Hroom), (proj2 (Z.leb_gt _ _) Hfree).
      rewrite lookup_insert_eq. simpl.
      rewrite map_size_insert_Some by eauto.
      by rewrite map_size_insert_None.
  - destruct Hcases
      as [[Hfull ->] | [(Hroom & Hcap & ->) | [(Hroom & Hfree & [? Hdup] & ->)
                                              | (Hroom & Hfree & _ & ->)]]];
      simpl; rewrite ?Z.geb_leb.
    + rewrite (proj2 (Z.leb_le _ _) Hfull). by rewrite Hb.
    + rewrite (proj2 (Z.leb_gt _ _) Hroom). rewrite map_size_empty in Hcap.
      change (Z.of_nat 0) with 0 in Hcap.
      rewrite (proj2 (Z.leb_le _ _) Hcap).
      rewrite lookup_insert_eq. simpl.
      by rewrite map_size_insert_None, map_size_empty.
    + by rewrite lookup_empty in Hdup.
    + rewrite (proj2 (Z.leb_gt _ _) Hroom). rewrite map_size_empty in Hfree.
      change (Z.of_nat 0) with 0 in Hfree.
      rewrite (proj2 (Z.leb_gt _ _) Hfree).
      rewrite lookup_insert_eq. simpl.
      rewrite map_size_insert_None by done.
      by rewrite map_size_insert_None, map_size_empty.
Qed.

(** Ingesting distinct fragments of the message, none stored yet: the
    occupancy at the end depends on their number only, and the buffer
    keeps [fragInv]. *)
Lemma ingest_occupancy arrivals : ∀ m,
  (∀ a, a ∈ arrivals → a.2 ∈ frags) →
  NoDup (ResponseChunk.ChunkID <$> arrivals.*2) →
  (∀ a b, a ∈ arrivals → buffer.buffers m !! messageID = Some b →
          ChunkBuffer.Chunks b !! ResponseChunk.ChunkID a.2 = None) →
  (∀ b, buffer.buffers m !! messageID = Some b → fragInv N frags b) →
  occupancy messageID (ingest arrivals m)
  = Nat.iter (length arrivals)
             (admission (buffer.maxBuffersPerPod m) (buffer.maxChunksPerBuffer m))
             (occupancy messageID m)
  ∧ ∀ b, buffer.buffers (ingest arrivals m) !! messageID = Some b →
         fragInv N frags b.
Proof.
  induction arrivals as [|a arrivals IH]; intros m Hin Hnd Hnew Hinv; [done |].
  simpl in Hnd. apply list.NoDup_cons in Hnd as [Hfirst Hnd].
  assert (Ha : a.2 ∈ frags) by (apply Hin, list_elem_of_here).
  destruct (frags_elem _ Ha) as (i & _ & Hmid & _).
  destruct (AddChunk_config a.1 a.2 m) as [HmaxB HmaxC].
  destruct (IH (buffer.AddChunk a.1 a.2 m).1) as [Hocc Hinv'].
  - intros a' Ha'. apply Hin. by apply list_elem_of_further.
  - done.
  - intros a' b' Ha' Hb'.
    destruct (ChunkBuffer.Chunks b' !! ResponseChunk.ChunkID a'.2) as [c'|] eqn:Hc';
      [| done].
    exfalso.
    destruct (AddChunk_stored a.1 a.2 m b' (ResponseChunk.ChunkID a'.2) Hmid Hb')
      as [Heq | (b & Hb & [c Hc])]; [eauto | |].
    + apply Hfirst. rewrite <- Heq. apply list_elem_of_fmap.
      exists a'.2. split; [done |]. apply list_elem_of_fmap. by exists a'.
    + rewrite (Hnew a' b) in Hc; [done | by apply list_elem_of_further | done].
  - by apply AddChunk_fragInv.
  - split; [| exact Hinv'].
    simpl. rewrite Hocc, HmaxB, HmaxC.
    rewrite AddChunk_occupancy; [| done |].
    + by rewrite <- Nat.iter_succ_r.
    + intros b Hb. apply (Hnew a b); [apply list_elem_of_here | done].
Qed.

Lemma omap_lookup_seqZ (chunks : gmap Z ResponseChunk.t) (n : nat) :
  (n ≤ length frags)%nat →
  (∀ i : nat, (i < n)%nat → chunks !! Z.of_nat i = frags !! i) →
  omap (λ i, chunks !! i) (seqZ 0 (Z.of_nat n)) = take n frags.
Proof.
  induction n as [|n IH]; intros Hlen Hagree; [done |].
  rewrite seqZ_S, omap_app, IH; [| lia | intros; apply Hagree; lia].
  destruct (lookup_lt_is_Some_2 frags n) as [c Hc]; [lia |].
  simpl. rewrite Z.add_0_l, Hagree, Hc by lia. simpl.
  by rewrite (take_S_r _ _ c).
Qed.

(** On a buffer that satisfies [fragInv], [FinalizeMessage] succeeds iff
    the buffer holds [N+1] fragments, and then spells [textOf frags]. *)
Lemma finalizedContent_by_size now m b :
  buffer.buffers m !! messageID = Some b →
  fragInv N frags b →
  finalizedContent now messageID m
  = if decide (size (ChunkBuffer.Chunks b) = S N) then Some (textOf frags) else None.
Proof.
  intros Hb (Hsub & Hseen & Hseq).
  destruct Hfrags as [Hlen Hfields].
  set (chunks := ChunkBuffer.Chunks b) in *.
  set (range := list_to_set (seqZ 0 (Z.of_nat (S N))) : gset Z).
  assert (Hrange : size range = S N).
  { unfold range. rewrite size_list_to_set by apply NoDup_seqZ.
    rewrite length_seqZ. lia. }
  assert (Hdom : dom chunks ⊆ range).
  { intros k [c Hc]%elem_of_dom. destruct (Hsub _ _ Hc) as [Hk Hfc].
    apply lookup_lt_Some in Hfc. unfold range.
    apply elem_of_list_to_set, elem_of_seqZ. lia. }
  assert (Hfull : dense chunks (Z.of_nat N) → size chunks = S N).
  { intros Hdense. apply Nat.le_antisymm.
    - rewrite <- (size_dom (D := gset Z)), <- Hrange. by apply subseteq_size.
    - rewrite <- (size_dom (D := gset Z)), <- Hrange. apply subseteq_size.
      intros k Hk. unfold range in Hk.
      apply elem_of_list_to_set, elem_of_seqZ in Hk.
      apply elem_of_dom, Hdense. lia. }
  unfold finalizedContent, buffer.FinalizeMessage. rewrite Hb. fold chunks.
  destruct (decide (size chunks = S N)) as [Hsize | Hsize].
  - assert (Heq : dom chunks = range).
    { apply set_subseteq_size_eq; [done |].
      rewrite Hrange, size_dom. lia. }
    assert (Hagree : ∀ i : nat, (i < S N)%nat → chunks !! Z.of_nat i = frags !! i).
    { intros i Hi.
      assert (Hin : Z.of_nat i ∈ dom chunks).
      { rewrite Heq. unfold range. apply elem_of_list_to_set, elem_of_seqZ. lia. }
      apply elem_of_dom in Hin as [c Hc]. rewrite Hc.
      destruct (Hsub _ _ Hc) as [_ Hfc]. by rewrite Nat2Z.id in Hfc. }
    assert (Hfin : ChunkBuffer.IsFinal b = true).
    { apply Hseen. rewrite Hagree by lia. apply lookup_lt_is_Some. lia. }
    rewrite Hfin, (Hseq Hfin). simpl.
    assert (Hdense : dense chunks (Z.of_nat N)).
    { intros i Hi. replace i with (Z.of_nat (Z.to_nat i)) by lia.
      rewrite Hagree by lia. apply lookup_lt_is_Some. lia. }
    rewrite (proj2 (firstMissing_dense chunks (Z.of_nat N)) Hdense).
    pose proof (assemble_content chunks (seqZ 0 (Z.of_nat N + 1)) ""%string 0 None)
      as Hcontent.
    fold (buffer.assemble chunks (Z.of_nat N)) in Hcontent.
    destruct (buffer.assemble chunks (Z.of_nat N)) as [[content tokens] metadata].
    simpl in *. f_equal. rewrite Hcontent. unfold textOf, contentFragments.
    replace (Z.of_nat N + 1) with (Z.of_nat (S N)) by lia.
    rewrite omap_lookup_seqZ; [| lia | done].
    by rewrite take_ge by lia.
  - destruct (ChunkBuffer.IsFinal b) eqn:Hfin; simpl; [| done].
    rewrite (Hseq eq_refl).
    destruct (buffer.firstMissing chunks (seqZ 0 (Z.of_nat N + 1))) as [i|] eqn:Hmiss;
      simpl; [done |].
    apply firstMissing_dense in Hmiss. by apply Hfull in Hmiss.
Qed.

(** With room for one more buffer and for [N+1] fragments, every one of
    [n] distinct fragments is admitted. *)
Lemma admission_room maxBuffers maxChunks (L n : nat) :
  Z.of_nat L + 1 < maxBuffers → Z.of_nat (S n) ≤ maxChunks →
  Nat.iter (S n) (admission maxBuffers maxChunks) (L, None) = (S L, Some (S n)).
Proof.
  intros HL. induction n as [|n IH]; intros Hn.
  - simpl. unfold admission. simpl. rewrite !Z.geb_leb.
    rewrite (proj2 (Z.leb_gt _ _)) by lia.
    by rewrite (proj2 (Z.leb_gt _ _)) by lia.
  - rewrite Nat.iter_succ, IH by lia. unfold admission. simpl fst. simpl snd.
    rewrite !Z.geb_leb.
    rewrite (proj2 (Z.leb_gt _ _)) by lia.
    by rewrite (proj2 (Z.leb_gt _ _)) by lia.
Qed.

Lemma ingest_finalizedContent now m arrivals :
  buffer.buffers m !! messageID = None →
  arrivals.*2 ≡ₚ frags →
  finalizedContent now messageID (ingest arrivals m)
  = match (Nat.iter (S N)
             (admission (buffer.maxBuffersPerPod m) (buffer.maxChunksPerBuffer m))
             (occupancy messageID m)).2 with
    | Some n => if decide (n = S N) then Some (textOf frags) else None
    | None => None
    end.
Proof.
  intros Hnone Hperm.
  assert (Hlength : length arrivals = S N).
  { rewrite <- (length_fmap snd), Hperm. apply Hfrags. }
  destruct (ingest_occupancy arrivals m) as [Hocc Hinv].
  - intros a Ha. rewrite <- Hperm. apply list_elem_of_fmap. by exists a.
  - rewrite Hperm. apply frags_NoDup.
  - intros a b _ Hb. congruence.
  - intros b Hb. congruence.
  - rewrite Hlength in Hocc. rewrite <- Hocc. unfold occupancy. simpl.
    destruct (buffer.buffers (ingest arrivals m) !! messageID) as [b|] eqn:Hb; simpl.
    + by apply finalizedContent_by_size, Hinv.
    + unfold finalizedContent. by rewrite FinalizeMessage_not_found.
Qed.

End ArrivalOrder.

(** C1. The fragments [0..N] of one message, the last one flagged final,
    are ingested by [AddChunk] into a manager that has no buffer for the
    message yet.  [FinalizeMessage] then yields the same [Content] whatever
    the order of arrival, the one of sequential ingestion; it yields a
    message, with the text the fragments spell, as soon as the manager has
    room for one more buffer and for [N+1] fragments. *)
Theorem C1_finalize_independent_of_arrival_order
    messageID N frags arrival sequential now now' m :
  BufferSpec.fragmentsOf messageID N frags →
  buffer.buffers m !! messageID = None →
  arrival.*2 ≡ₚ frags →
  sequential.*2 = frags →
  BufferSpec.finalizedContent now messageID (BufferSpec.ingest arrival m)
  = BufferSpec.finalizedContent now' messageID (BufferSpec.ingest sequential m)
  ∧ (Z.of_nat (size (buffer.buffers m)) + 1 < buffer.maxBuffersPerPod m →
     Z.of_nat (S N) ≤ buffer.maxChunksPerBuffer m →
     BufferSpec.finalizedContent now messageID (BufferSpec.ingest arrival m)
     = Some (BufferSpec.textOf frags)).
Proof.
  intros Hfrags Hnone Hperm Hseq.
  rewrite (ingest_finalizedContent messageID N frags Hfrags now m arrival Hnone Hperm).
  rewrite (ingest_finalizedContent messageID N frags Hfrags now' m sequential Hnone)
    by (by rewrite Hseq).
  split; [done |]. intros HroomB HroomC.
  unfold BufferSpec.occupancy. rewrite Hnone. simpl fmap.
  rewrite admission_room by done. simpl. by rewrite decide_True.
Qed.

(** * Package [handlers]: the submit endpoint *)

Section HandleChat.
Import Examples.

(** C7 (what the code does). For a POST with a well-formed body that
    carries [session_id], [user_id] and [message], a failing publish makes
    [HandleChat] call the bus once and answer with status 500
    ([http.StatusInternalServerError]), not 503. *)
Theorem C7_publish_failure_answers_500 publish messageID correlationID now req :
  ChatRequest.SessionID req ≠ ""%string →
  ChatRequest.UserID req ≠ ""%string →
  ChatRequest.Message req ≠ ""%string →
  let workflowReq :=
    WorkflowRequest.mk messageID (ChatRequest.SessionID req) (ChatRequest.UserID req)
      (ChatRequest.Message req) (handlers.workflowContext req) now correlationID in
  publish workflowReq = false →
  let r := handlers.HandleChat publish messageID correlationID now
             (handlers.mkRequest handlers.POST (Some req)) in
  handlers.StatusCode r.1 = 500
  ∧ handlers.StatusCode r.1 ≠ handlers.StatusServiceUnavailable
  ∧ r.2 = [workflowReq].
Proof.
  intros Hs Hu Hm workflowReq Hfail. unfold handlers.HandleChat. simpl.
  apply String.eqb_neq in Hs, Hu, Hm. rewrite Hs, Hu, Hm. simpl.
  fold workflowReq. rewrite Hfail. simpl. done.
Qed.

Lemma C7_witness :
  let req := ChatRequest.mk "S1" "hi" "U1" "" "" None in
  let r := handlers.HandleChat (λ _, false) "msg-1" "corr-1" 0
             (handlers.mkRequest handlers.POST (Some req)) in
  handlers.StatusCode r.1 = 500
  ∧ handlers.StatusCode r.1 ≠ handlers.StatusServiceUnavailable
  ∧ r.2 = [WorkflowRequest.mk "msg-1" "S1" "U1" "hi" None 0 "corr-1"].
Proof.
  intros req.
  apply (C7_publish_failure_answers_500 (λ _, false) "msg-1" "corr-1" 0 req);
    [discriminate | discriminate | discriminate | reflexivity].
Defined.

End HandleChat.

(** * Package [registry]: the members of [session:connections] *)

Section GetActivePods.

Lemma substring_length (s : string) : ∀ n k : nat,
  (n + k ≤ String.length s)%nat → String.length (String.substring n k s) = k.
Proof.
  induction s as [|a s IH]; intros n k Hle; simpl in Hle.
  - destruct n, k; simpl in *; try lia; done.
  - destruct n as [|n]; simpl.
    + destruct k as [|k]; simpl; [done |]. rewrite (IH 0%nat k); [done | lia].
    + apply IH. lia.
Qed.

Lemma string_length_append (a b : string) :
  String.length (a ++ b)%string = (String.length a + String.length b)%nat.
Proof.
  induction a as [|x a IH]; [done |].
  change (S (String.length (a ++ b)%string)
          = S (String.length a + String.length b)).
  by rewrite IH.
Qed.

Lemma substring_prefix (a b : string) :
  String.substring 0 (String.length a) (a ++ b)%string = a.
Proof.
  induction a as [|x a IH].
  - simpl. by destruct b.
  - change (String x (String.substring 0 (String.length a) (a ++ b)%string)
            = String x a).
    by rewrite IH.
Qed.

(** Line 123 in closed form: the member without its last 37 bytes, and
    a panic when it has fewer. *)
Lemma extractPodID_fixed_width member :
  registry.extractPodID member
  = if 37 <=? registry.len member
    then Some (String.substring 0 (Z.to_nat (registry.len member - 37)) member)
    else None.
Proof.
  unfold registry.extractPodID, registry.slice.
  assert (Hlen : 0 ≤ registry.len member)
    by (unfold registry.len; lia).
  destruct (Z.leb_spec 0 (registry.len member - 36)) as [H36 | H36]; simpl.
  - rewrite !Z.leb_refl.
    replace (registry.len member - 36 <=? registry.len member) with true
      by (symmetry; apply Z.leb_le; lia).
    simpl.
    assert (Htail : registry.len
               (String.substring (Z.to_nat (registry.len member - 36))
                  (Z.to_nat (registry.len member - (registry.len member - 36))) member)
             = 36).
    { unfold registry.len at 1. rewrite substring_length.
      - lia.
      - unfold registry.len in *. lia. }
    rewrite Htail.
    replace (registry.len member - 36 - 1) with (registry.len member - 37) by lia.
    replace (registry.len member - 37 - 0) with (registry.len member - 37) by lia.
    destruct (Z.leb_spec 37 (registry.len member)) as [H37 | H37].
    + replace (0 <=? registry.len member - 37) with true
        by (symmetry; apply Z.leb_le; lia).
      replace (registry.len member - 37 <=? registry.len member) with true
        by (symmetry; apply Z.leb_le; lia).
      done.
    + replace (0 <=? registry.len member - 37) with false
        by (symmetry; apply Z.leb_gt; lia).
      done.
  - destruct (Z.leb_spec 37 (registry.len member)); [lia | done].
Qed.

Lemma collectPods_panics members : ∀ podMap member,
  member ∈ members → registry.extractPodID member = None →
  registry.collectPods members podMap = None.
Proof.
  induction members as [|m0 members IH]; intros podMap member Hin Hnone.
  - by apply elem_of_nil in Hin.
  - simpl. apply elem_of_cons in Hin as [<- | Hin].
    + by rewrite Hnone.
    + destruct (registry.extractPodID m0); [| done]. by eapply IH.
Qed.

(** For a stream id of exactly 36 bytes the fixed-width arithmetic
    returns the instance id. *)
Lemma extractPodID_uuid instance stream :
  String.length stream = 36%nat →
  registry.extractPodID (instance ++ ":" ++ stream)%string = Some instance.
Proof.
  intros Hstream. rewrite extractPodID_fixed_width.
  assert (Hlen : registry.len (instance ++ ":" ++ stream)%string
                 = Z.of_nat (String.length instance) + 37).
  { unfold registry.len. rewrite !string_length_append, Hstream. simpl. lia. }
  rewrite Hlen.
  replace (37 <=? Z.of_nat (String.length instance) + 37) with true
    by (symmetry; apply Z.leb_le; lia).
  replace (Z.to_nat (Z.of_nat (String.length instance) + 37 - 37))
    with (String.length instance) by lia.
  by rewrite substring_prefix.
Qed.

(** C9 (what the code does). A member of [session:connections] shorter
    than 37 bytes, as any [<instance>:<stream>] with a short stream id
    is, makes [GetActivePods] panic on the slice expression: it returns
    no instance id at all. *)
Theorem C9_short_member_panics members member :
  member ∈ members →
  registry.len member < 37 →
  registry.GetActivePods (Some members) = registry.Panic.
Proof.
  intros Hin Hshort. unfold registry.GetActivePods.
  rewrite (collectPods_panics members ∅ member Hin); [done |].
  rewrite extractPodID_fixed_width.
  destruct (Z.leb_spec 37 (registry.len member)); [lia | done].
Qed.

Lemma C9_witness :
  registry.beforeLastColon "pod-1:abc" = Some "pod-1"%string
  ∧ registry.GetActivePods (Some ["pod-1:abc"%string]) = registry.Panic.
Proof.
  split; [reflexivity |].
  apply (C9_short_member_panics ["pod-1:abc"%string] "pod-1:abc").
  - apply list_elem_of_here.
  - reflexivity.
Defined.

(** With a stream id of 40 bytes the call returns, but with the wrong
    instance id. *)
Lemma GetActivePods_long_stream_id :
  let member := "pod-1:0123456789012345678901234567890123456789"%string in
  registry.beforeLastColon member = Some "pod-1"%string
  ∧ registry.GetActivePods (Some [member]) = registry.Done ["pod-1:012"%string].
Proof. split; vm_compute; reflexivity. Qed.

(** With a 36-byte stream id, as [uuid.New().String()] produces, the
    instance id is found. *)
Lemma GetActivePods_uuid_stream_id :
  let member := "pod-1:123e4567-e89b-12d3-a456-426614174000"%string in
  registry.beforeLastColon member = Some "pod-1"%string
  ∧ registry.GetActivePods (Some [member]) = registry.Done ["pod-1"%string].
Proof. split; vm_compute; reflexivity. Qed.

End GetActivePods.

(** * Package [sse]: the stream registry *)

Section StreamRegistry.
Import SseSpec.

Local Open Scope nat_scope.

Lemma totalLength_comm (z1 z2 : list Connection.t) (y : nat) :
  length z1 + (length z2 + y) = length z2 + (length z1 + y).
Proof. lia. Qed.

Lemma totalLength_insert s k l :
  totalLength (<[k := l]> s) + length (default [] (s !! k)) = totalLength s + length l.
Proof.
  unfold totalLength. destruct (s !! k) as [l0|] eqn:Hk; simpl.
  - rewrite <- (insert_delete_eq s).
    rewrite map_fold_insert_L;
      [| intros; apply totalLength_comm | apply lookup_delete_eq].
    rewrite (map_fold_delete_L _ _ k l0 s);
      [| intros; apply totalLength_comm | done].
    lia.
  - rewrite map_fold_insert_L; [| intros; apply totalLength_comm | done]. lia.
Qed.

Lemma totalLength_delete s k :
  totalLength (delete k s) + length (default [] (s !! k)) = totalLength s.
Proof.
  unfold totalLength. destruct (s !! k) as [l0|] eqn:Hk; simpl.
  - rewrite (map_fold_delete_L _ _ k l0 s);
      [| intros; apply totalLength_comm | done].
    lia.
  - rewrite delete_id by done. lia.
Qed.

Lemma sessionConns_members m sid :
  indexInv m →
  NoDup (sse.sessionConns m sid)
  ∧ ∀ c, c ∈ sse.sessionConns m sid →
      Connection.SessionID c = sid
      ∧ sse.connections m !! Connection.ID c = Some c.
Proof.
  intros (_ & H2 & _). unfold sse.sessionConns.
  destruct (sse.sessions m !! sid) as [l|] eqn:Hl; simpl.
  - destruct (H2 _ _ Hl) as (_ & Hnd & Hmem). done.
  - split; [apply NoDup_nil_2 |]. intros c Hc. by apply elem_of_nil in Hc.
Qed.

Lemma AddConnection_inv id now sid uid ip ua m :
  indexInv m → sse.connections m !! id = None →
  indexInv (sse.AddConnection id now sid uid ip ua true m).1.
Proof.
  intros Hinv Hfresh.
  destruct (sessionConns_members m sid Hinv) as [Hnd Hold].
  destruct Hinv as (H1 & H2 & H3).
  unfold sse.AddConnection. simpl.
  set (conn := Connection.mk id sid uid now ip ua).
  set (old := sse.sessionConns m sid) in *.
  assert (Hid : ∀ c, sse.connections m !! Connection.ID c = Some c →
                     Connection.ID c ≠ id).
  { intros c Hc Heq. rewrite Heq in Hc. congruence. }
  assert (Hnotin : conn ∉ old).
  { intros Hin. apply Hold in Hin as [_ Hc]. by apply Hid in Hc. }
  split; [| split].
  - intros id' c. simpl. rewrite lookup_insert_Some.
    intros [[<- <-] | [Hne Hc]].
    + split; [done |]. unfold sse.sessionConns. simpl.
      rewrite lookup_insert_eq. simpl. apply elem_of_app. right.
      apply list_elem_of_here.
    + destruct (H1 _ _ Hc) as [Hidc Hin]. split; [done |].
      unfold sse.sessionConns in *. simpl.
      destruct (decide (sid = Connection.SessionID c)) as [Hs | Hs].
      * rewrite <- Hs. rewrite lookup_insert_eq. simpl.
        apply elem_of_app. left. subst old. by rewrite Hs.
      * by rewrite lookup_insert_ne.
  - intros sid' l. simpl. rewrite lookup_insert_Some.
    intros [[<- <-] | [Hne Hl]].
    + split; [by destruct old |]. split.
      * apply list.NoDup_app. split; [done |]. split; [| apply NoDup_singleton].
        intros x Hx Hx'. apply list_elem_of_singleton in Hx'. by subst.
      * intros c Hc. apply elem_of_app in Hc as [Hc | Hc].
        -- destruct (Hold c Hc) as [Hs Hconn]. split; [done |].
           rewrite lookup_insert_ne; [done |]. intros Heq. by apply (Hid c Hconn).
        -- apply list_elem_of_singleton in Hc as ->. split; [done |].
           apply lookup_insert_eq.
    + destruct (H2 _ _ Hl) as (Hne' & Hnd' & Hmem).
      split; [done |]. split; [done |].
      intros c Hc. destruct (Hmem c Hc) as [Hs Hconn]. split; [done |].
      rewrite lookup_insert_ne; [done |]. intros Heq. by apply (Hid c Hconn).
  - simpl. rewrite map_size_insert_None by done.
    unfold sse.totalSessionConns in *. simpl.
    pose proof (totalLength_insert (sse.sessions m) sid (old ++ [conn])) as Ht.
    unfold totalLength in Ht. rewrite length_app in Ht. simpl in Ht.
    fold (sse.sessionConns m sid) in Ht. fold old in Ht. lia.
Qed.

(** What [RemoveConnection] does to a registered connection: the record
    leaves the connections map and its place in the slice of its
    session, and the session key goes with the last record. *)
Lemma RemoveConnection_found id conn m :
  indexInv m → sse.connections m !! id = Some conn →
  ∃ l1 l2,
    sse.sessions m !! Connection.SessionID conn = Some (l1 ++ conn :: l2)
    ∧ sse.RemoveConnection id m
      = sse.mkManager
          (delete id (sse.connections m))
          (if Nat.eqb (length (l1 ++ l2)) 0
           then delete (Connection.SessionID conn) (sse.sessions m)
           else <[Connection.SessionID conn := l1 ++ l2]> (sse.sessions m)).
Proof.
  intros (H1 & H2 & _) Hconn.
  destruct (H1 _ _ Hconn) as [Hid Hin].
  unfold sse.sessionConns in Hin.
  destruct (sse.sessions m !! Connection.SessionID conn) as [conns|] eqn:Hconns;
    simpl in Hin; [| by apply elem_of_nil in Hin].
  destruct (H2 _ _ Hconns) as (_ & Hnd & Hmem).
  destruct (list_find_elem_of (λ c, Connection.ID c = id) conns conn Hin Hid)
    as [[i c'] Hfind].
  pose proof Hfind as Hfind'.
  apply list_find_Some in Hfind' as (Hi & Hc' & _).
  assert (c' = conn) as ->.
  { destruct (Hmem c' (list_elem_of_lookup_2 _ _ _ Hi)) as [_ Hl].
    rewrite Hc' in Hl. congruence. }
  exists (take i conns), (drop (S i) conns).
  rewrite take_drop_middle by done. split; [done |].
  unfold sse.RemoveConnection. rewrite Hconn, Hconns, Hfind.
  rewrite lookup_insert_eq. simpl.
  destruct (Nat.eqb (length (take i conns ++ drop (S i) conns)) 0); [| done].
  by rewrite delete_insert_eq.
Qed.

Lemma RemoveConnection_unknown id m :
  sse.connections m !! id = None → sse.RemoveConnection id m = m.
Proof. intros H. unfold sse.RemoveConnection. by rewrite H. Qed.

Lemma RemoveConnection_inv id m :
  indexInv m → indexInv (sse.RemoveConnection id m).
Proof.
  intros Hinv.
  destruct (sse.connections m !! id) as [conn|] eqn:Hconn;
    [| by rewrite RemoveConnection_unknown].
  destruct (RemoveConnection_found id conn m Hinv Hconn) as (l1 & l2 & Hl & ->).
  destruct Hinv as (H1 & H2 & H3).
  destruct (H1 _ _ Hconn) as [Hid _].
  destruct (H2 _ _ Hl) as (_ & Hnd & Hmem).
  set (sid := Connection.SessionID conn) in *.
  apply list.NoDup_app in Hnd as (Hnd1 & Hdisj & Hnd2).
  apply list.NoDup_cons in Hnd2 as [Hnot2 Hnd2].
  assert (Hnot1 : conn ∉ l1).
  { intros Hc. apply (Hdisj conn Hc). apply list_elem_of_here. }
  assert (Hrest : ∀ c, c ∈ l1 ++ l2 → c ∈ l1 ++ conn :: l2 ∧ c ≠ conn).
  { intros c Hc. apply elem_of_app in Hc as [Hc | Hc].
    - split; [apply elem_of_app; by left | congruence].
    - split; [apply elem_of_app; right; by apply list_elem_of_further | congruence]. }
  assert (Hother : ∀ c, c ≠ conn → sse.connections m !! Connection.ID c = Some c →
                        Connection.ID c ≠ id).
  { intros c Hne Hc Heq. rewrite Heq in Hc. congruence. }
  (* the slice of the session after the call, read as a Go map *)
  assert (Hslice : ∀ sid',
            default [] ((if Nat.eqb (length (l1 ++ l2)) 0
                         then delete sid (sse.sessions m)
                         else <[sid := l1 ++ l2]> (sse.sessions m)) !! sid')
            = if decide (sid = sid') then l1 ++ l2
              else default [] (sse.sessions m !! sid')).
  { intros sid'. destruct (Nat.eqb_spec (length (l1 ++ l2)) 0) as [Hlen | Hlen].
    - apply nil_length_inv in Hlen. rewrite Hlen.
      destruct (decide (sid = sid')) as [<- | Hs].
      + by rewrite lookup_delete_eq.
      + by rewrite lookup_delete_ne.
    - destruct (decide (sid = sid')) as [<- | Hs].
      + by rewrite lookup_insert_eq.
      + by rewrite lookup_insert_ne. }
  split; [| split].
  - intros id' c. simpl. rewrite lookup_delete_Some. intros [Hne Hc].
    destruct (H1 _ _ Hc) as [Hidc Hin]. split; [done |].
    unfold sse.sessionConns in *. simpl. rewrite Hslice.
    destruct (decide (sid = Connection.SessionID c)) as [Hs | Hs]; [| done].
    rewrite <- Hs, Hl in Hin. simpl in Hin.
    apply elem_of_app in Hin as [Hin | Hin]; [apply elem_of_app; by left |].
    apply elem_of_cons in Hin as [-> | Hin]; [congruence |].
    apply elem_of_app; by right.
  - intros sid' l. simpl. intros Hl'.
    assert (Hcase : (sid = sid' ∧ l = l1 ++ l2 ∧ l ≠ [])
                    ∨ (sid ≠ sid' ∧ sse.sessions m !! sid' = Some l)).
    { destruct (Nat.eqb_spec (length (l1 ++ l2)) 0) as [Hlen | Hlen].
      - apply lookup_delete_Some in Hl' as [Hs Hl']. by right.
      - apply lookup_insert_Some in Hl' as [[Hs <-] | [Hs Hl']]; [left | by right].
        split; [done |]. split; [done |]. intros Heq. by rewrite Heq in Hlen. }
    destruct Hcase as [(<- & -> & Hne) | [Hs Hl'']].
    + split; [done |]. split.
      * apply list.NoDup_app. split; [done |]. split; [| done].
        intros x Hx Hx'. apply (Hdisj x Hx). by apply list_elem_of_further.
      * intros c Hc. destruct (Hrest c Hc) as [Hc' Hne'].
        destruct (Hmem c Hc') as [Hsc Hcc]. split; [done |].
        rewrite lookup_delete_ne; [done |]. intros Heq. by apply (Hother c Hne' Hcc).
    + destruct (H2 _ _ Hl'') as (Hne' & Hnd' & Hmem').
      split; [done |]. split; [done |].
      intros c Hc. destruct (Hmem' c Hc) as [Hsc Hcc]. split; [done |].
      rewrite lookup_delete_ne; [done |]. intros Heq.
      apply (Hother c); [| done | done]. intros ->. by apply Hs.
  - simpl. rewrite map_size_delete_Some by done.
    unfold sse.totalSessionConns in *. simpl.
    fold (totalLength (sse.sessions m)) in H3.
    pose proof (totalLength_insert (sse.sessions m) sid (l1 ++ l2)) as Hins.
    pose proof (totalLength_delete (sse.sessions m) sid) as Hdel.
    rewrite Hl in Hins, Hdel. simpl in Hins, Hdel.
    rewrite !length_app in *. simpl in *.
    assert (Hsize : size (sse.connections m) ≠ 0).
    { intros Hz. apply map_size_empty_inv in Hz. rewrite Hz in Hconn.
      by rewrite lookup_empty in Hconn. }
    destruct (Nat.eqb_spec (length l1 + length l2) 0) as [Hlen | Hlen];
      fold (totalLength (delete sid (sse.sessions m)));
      fold (totalLength (<[sid := l1 ++ l2]> (sse.sessions m))); lia.
Qed.

Lemma reachable_indexInv m : sse.reachable m → indexInv m.
Proof.
  induction 1 as [| m c Hreach IH Hfresh].
  - split; [| split]; simpl.
    + intros id c Hc. by rewrite lookup_empty in Hc.
    + intros sid l Hl. by rewrite lookup_empty in Hl.
    + unfold sse.totalSessionConns. simpl. by rewrite map_fold_empty.
  - destruct c as [id now sid uid ip ua fl | id]; simpl in *.
    + destruct fl; [by apply AddConnection_inv | done].
    + by apply RemoveConnection_inv.
Qed.

Lemma occurrences_NoDup (c : Connection.t) l :
  NoDup l → sse.occurrences c l = if decide (c ∈ l) then 1 else 0.
Proof.
  unfold sse.occurrences. induction 1 as [| x l Hx Hnd IH]; [done |].
  rewrite filter_cons. destruct (decide (x = c)) as [-> | Hne]; simpl.
  - rewrite IH. rewrite decide_False by done.
    rewrite decide_True by apply list_elem_of_here. done.
  - rewrite IH. destruct (decide (c ∈ l)) as [Hin | Hin].
    + rewrite decide_True by (by apply list_elem_of_further). done.
    + rewrite decide_False; [done |].
      intros Hc. apply elem_of_cons in Hc as [-> | Hc]; done.
Qed.

Lemma registered_iff_listed m c :
  indexInv m →
  registered m c ↔ c ∈ sse.sessionConns m (Connection.SessionID c).
Proof.
  intros Hinv. split.
  - intros [id Hc]. destruct Hinv as (H1 & _ & _). by destruct (H1 _ _ Hc).
  - intros Hc.
    destruct (sessionConns_members m (Connection.SessionID c) Hinv) as [_ Hmem].
    destruct (Hmem c Hc) as [_ Hconn]. by eexists.
Qed.

Lemma elem_of_liveSessions m s :
  s ∈ sse.liveSessions m ↔ ∃ c, registered m c ∧ Connection.SessionID c = s.
Proof.
  unfold sse.liveSessions. rewrite elem_of_list_to_set, list_elem_of_fmap. split.
  - intros ([id c] & -> & Hin). apply elem_of_map_to_list in Hin.
    exists c. split; [by exists id | done].
  - intros (c & [id Hc] & <-). exists (id, c). split; [done |].
    by apply elem_of_map_to_list.
Qed.

Lemma listed_iff_live m s :
  indexInv m →
  sse.sessionConns m s ≠ [] ↔ ∃ c, registered m c ∧ Connection.SessionID c = s.
Proof.
  intros Hinv. destruct (sessionConns_members m s Hinv) as [_ Hmem]. split.
  - intros Hne. destruct (sse.sessionConns m s) as [|c l] eqn:Hl; [done |].
    destruct (Hmem c (list_elem_of_here _ _)) as [Hs Hc].
    exists c. split; [by eexists | done].
  - intros (c & Hreg & <-) Hnil.
    apply (registered_iff_listed m c Hinv) in Hreg.
    rewrite Hnil in Hreg. by apply elem_of_nil in Hreg.
Qed.

Lemma dom_sessions_live m :
  indexInv m → dom (sse.sessions m) = sse.liveSessions m.
Proof.
  intros Hinv. apply set_eq. intros s.
  rewrite elem_of_liveSessions, <- (listed_iff_live m s Hinv), elem_of_dom.
  unfold sse.sessionConns. destruct Hinv as (_ & H2 & _).
  destruct (sse.sessions m !! s) as [l|] eqn:Hl; simpl.
  - destruct (H2 _ _ Hl) as (Hne & _). split; [done | eauto].
  - split; [by intros [? ?] | done].
Qed.

(** C10. After any finite sequence of [AddConnection] and
    [RemoveConnection] calls the two indices agree: a connection record
    is in the connections map iff it occurs exactly once in the slice of
    its session; no session key maps to an empty slice;
    [GetConnectionCount] is the sum of the lengths of the slices;
    [GetSessionCount] counts the sessions that have a registered
    connection; [HasActiveConnections s] holds iff a connection of
    session [s] is registered; and [RemoveConnection] with an unknown id
    changes nothing. *)
Theorem C10_registry_indices_agree m :
  sse.reachable m →
  (∀ c, registered m c
        ↔ sse.occurrences c (sse.sessionConns m (Connection.SessionID c)) = 1)
  ∧ (∀ sid l, sse.sessions m !! sid = Some l → l ≠ [])
  ∧ sse.GetConnectionCount m = sse.totalSessionConns m
  ∧ sse.GetSessionCount m = size (sse.liveSessions m)
  ∧ (∀ s, sse.HasActiveConnections s m = true
          ↔ ∃ c, registered m c ∧ Connection.SessionID c = s)
  ∧ (∀ id, sse.connections m !! id = None → sse.RemoveConnection id m = m).
Proof.
  intros Hreach. pose proof (reachable_indexInv m Hreach) as Hinv.
  split; [| split; [| split; [| split; [| split]]]].
  - intros c. rewrite (registered_iff_listed m c Hinv).
    destruct (sessionConns_members m (Connection.SessionID c) Hinv) as [Hnd _].
    rewrite (occurrences_NoDup c _ Hnd).
    destruct (decide (c ∈ sse.sessionConns m (Connection.SessionID c))); split;
      done.
  - intros sid l Hl. destruct Hinv as (_ & H2 & _). by destruct (H2 _ _ Hl).
  - destruct Hinv as (_ & _ & H3). exact H3.
  - unfold sse.GetSessionCount.
    rewrite <- (dom_sessions_live m Hinv). symmetry. apply size_dom.
  - intros s. rewrite <- (listed_iff_live m s Hinv).
    unfold sse.HasActiveConnections. rewrite Nat.ltb_lt.
    destruct (sse.sessionConns m s); simpl; split; first [done | lia].
  - intros id. apply RemoveConnection_unknown.
Qed.

Lemma C10_witness :
  let m :=
    sse.exec
      (sse.exec
         (sse.exec sse.NewManager (sse.CallAdd "c1" 0%Z "S1" "U1" "10.0.0.1" "curl" true))
         (sse.CallAdd "c2" 1%Z "S2" "U2" "10.0.0.2" "curl" true))
      (sse.CallRemove "c1") in
  sse.GetConnectionCount m = sse.totalSessionConns m
  ∧ sse.GetSessionCount m = size (sse.liveSessions m)
  ∧ sse.RemoveConnection "c1" m = m.
Proof.
  intros m.
  destruct (C10_registry_indices_agree m) as (_ & _ & Hcount & Hsess & _ & Hunknown).
  { repeat (apply sse.reachable_step); first [apply sse.reachable_new | vm_compute; done]. }
  split; [exact Hcount |]. split; [exact Hsess |].
  apply Hunknown. vm_compute; reflexivity.
Defined.

End StreamRegistry.

(** * The scenarios of the protocol, run on the embedding *)

Section Scenarios.
Import BufferSpec Examples.

(** Permuted arrival 2, 0, 1 against 0, 1, 2: both finalize to "abc". *)
Lemma C1_witness :
  finalizedContent 9 "m1" (ingest [(0, f2); (1, f0); (2, f1)] (manager 10 10))
  = finalizedContent 9 "m1" (ingest [(0, f0); (1, f1); (2, f2)] (manager 10 10))
  ∧ finalizedContent 9 "m1" (ingest [(0, f2); (1, f0); (2, f1)] (manager 10 10))
    = Some "abc"%string.
Proof.
  destruct (C1_finalize_independent_of_arrival_order "m1" 2 [f0; f1; f2]
              [(0, f2); (1, f0); (2, f1)] [(0, f0); (1, f1); (2, f2)] 9 9
              (manager 10 10)) as [Heq Hok].
  - split; [reflexivity |]. intros i c Hi.
    destruct i as [|[|[|i]]]; simpl in Hi; try discriminate;
      injection Hi as <-; repeat split; reflexivity.
  - vm_compute; reflexivity.
  - simpl. apply (Permutation_cons_append [f0; f1] f2).
  - reflexivity.
  - split; [exact Heq |]. rewrite Hok; [reflexivity | | ]; vm_compute;
      first [reflexivity | discriminate].
Defined.

(** Permuted arrival 2, 0, 1: one drain emits 0, 1, 2 and reports the
    message complete. *)
Lemma C2_witness :
  let m := after [f2; f0; f1] (manager 10 10) in
  (buffer.GetNextChunks "m1" m).2 = inr ([f0; f1; f2], true).
Proof.
  intros m.
  destruct (C2_GetNextChunks_contiguous_prefix "m1" m (targetBuffer 0 f0 m))
    as (out & Heq & Hlookup & _); [vm_compute; reflexivity |].
  assert (Hlen : length out = 3%nat).
  { apply (f_equal (λ r, match r.2 with
                         | inr (l, _) => length l
                         | inl _ => O
                         end)) in Heq.
    simpl in Heq. rewrite <- Heq. vm_compute; reflexivity. }
  assert (Hout : out = [f0; f1; f2]).
  { destruct out as [|c0 [|c1 [|c2 [|c3 out]]]]; simpl in Hlen; try discriminate.
    pose proof (Hlookup 0%nat ltac:(simpl; lia)) as H0.
    pose proof (Hlookup 1%nat ltac:(simpl; lia)) as H1.
    pose proof (Hlookup 2%nat ltac:(simpl; lia)) as H2.
    vm_compute in H0, H1, H2.
    injection H0 as ->. injection H1 as ->. injection H2 as ->. reflexivity. }
  rewrite Heq, Hout. vm_compute; reflexivity.
Defined.

(** In-order arrival 0, 1, 2: the finalized message reads "abc" and
    carries the metadata and the token count of the final fragment. *)
Lemma C3_witness :
  let m := after [f0; f1; f2] (manager 10 10) in
  ∃ msg, (buffer.FinalizeMessage 9 "m1" m).2 = inr msg
         ∧ Message.Content msg = "abc"%string
         ∧ Message.Metadata msg = Some usage
         ∧ Message.TokenCount msg = 42.
Proof.
  intros m.
  destruct (C3_FinalizeMessage_assembles 9 "m1" m (targetBuffer 0 f0 m))
    as (_ & _ & Hiff & Hok); [vm_compute; reflexivity |].
  destruct (proj2 Hiff) as [msg Hmsg].
  { split; [vm_compute; reflexivity |]. intros i Hi.
    assert (Hcases : i = 0 ∨ i = 1 ∨ i = 2).
    { change (ChunkBuffer.FinalChunkID (targetBuffer 0 f0 m)) with 2 in Hi. lia. }
    destruct Hcases as [-> | [-> | ->]]; eexists; vm_compute; reflexivity. }
  exists msg. split; [exact Hmsg |].
  destruct (Hok msg Hmsg) as [Hcontent Hmeta].
  split; [rewrite Hcontent; vm_compute; reflexivity |].
  destruct (Hmeta f2) as [Hmd Htok].
  { split; [vm_compute; discriminate |].
    split; [vm_compute; reflexivity |].
    split; [reflexivity |].
    intros i c Hi Hc.
    assert (Hcases : i = 0 ∨ i = 1).
    { change (ChunkBuffer.FinalChunkID (targetBuffer 0 f0 m)) with 2 in Hi. lia. }
    destruct Hcases as [-> | ->]; vm_compute in Hc; injection Hc as <-; reflexivity. }
  split; [rewrite Hmd; reflexivity | rewrite Htok; vm_compute; reflexivity].
Defined.

End Scenarios.
